(** * Timeline visualiser: row builder, segment merger, colours and label layout

    A shallow embedding of [src/main.py] (the functions [get_color],
    [process_sheet] and the per-row part of [generate], with its local
    helpers [draw_row_outside_labels], [place_band] and [need_sec]).

    Conventions of the model.
    - Strings are UTF-8 byte strings; the markers of the source are written
      as the same literals.
    - Durations are integral seconds ([Z]); start and end offsets are sums
      of durations.  Horizontal positions of labels are rationals ([Q]),
      because the source halves sums and adds constants such as [0.12].
    - The rendered width of a text (matplotlib's [get_window_extent]) is not
      computed by the program; it is a parameter [tw : string -> Q] of every
      definition that needs it.
    - Drawing calls ([ax.text], [ax.annotate]) are recorded in the order in
      which the source issues them. *)

From Stdlib Require Import List ZArith QArith Bool String Ascii Lia Lqa.
From Stdlib Require Import Permutation DecimalString.
Import ListNotations.

Local Open Scope string_scope.
Local Open Scope Z_scope.
Local Open Scope list_scope.

(* ================================================================== *)
(** ** Text helpers *)

Module Text.

(** Python's [needle in hay] on strings (also what [str.contains] does for
    the marker literals used here, none of which has a regex metacharacter). *)
Fixpoint contains (needle hay : string) : bool :=
  if String.prefix needle hay then true
  else match hay with
       | EmptyString => false
       | String _ rest => contains needle rest
       end.

(** One-byte whitespace of Python's [str.strip()]:
    U+0009..U+000D, U+001C..U+001F and U+0020. *)
Definition ws1 (b : N) : bool :=
  ((9 <=? b) && (b <=? 13) || (28 <=? b) && (b <=? 32))%N.

(** Two-byte whitespace: U+0085 (C2 85) and U+00A0 (C2 A0). *)
Definition ws2 (b1 b2 : N) : bool :=
  ((b1 =? 194) && ((b2 =? 133) || (b2 =? 160)))%N.

(** Three-byte whitespace: U+1680 (E1 9A 80), U+2000..U+200A (E2 80 80..8A),
    U+2028, U+2029 (E2 80 A8, A9), U+202F (E2 80 AF), U+205F (E2 81 9F)
    and U+3000 (E3 80 80). *)
Definition ws3 (b1 b2 b3 : N) : bool :=
  ((b1 =? 225) && (b2 =? 154) && (b3 =? 128)
   || (b1 =? 226) && (b2 =? 128)
      && ((128 <=? b3) && (b3 <=? 138) || (b3 =? 168) || (b3 =? 169) || (b3 =? 175))
   || (b1 =? 226) && (b2 =? 129) && (b3 =? 159)
   || (b1 =? 227) && (b2 =? 128) && (b3 =? 128))%N.

(** [is_blank s] is Python's [not s.strip()]: every character of [s] is
    whitespace. *)
Fixpoint is_blank (s : string) : bool :=
  match s with
  | EmptyString => true
  | String c1 t1 =>
      let b1 := N_of_ascii c1 in
      if ws1 b1 then is_blank t1
      else match t1 with
           | EmptyString => false
           | String c2 t2 =>
               let b2 := N_of_ascii c2 in
               if ws2 b1 b2 then is_blank t2
               else match t2 with
                    | EmptyString => false
                    | String c3 t3 =>
                        if ws3 b1 b2 (N_of_ascii c3) then is_blank t3 else false
                    end
           end
  end.

(** Python's truthiness of a string. *)
Definition truthy (s : string) : bool :=
  match s with EmptyString => false | String _ _ => true end.

Definition CM_MARK : string := "CM".
Definition DIGEST_MARK : string := "ダイジェスト".
Definition HUMAN_MARK : string := "人力".
Definition GLIDER_MARK : string := "滑空".
Definition VTR_MARK : string := "VTR".

End Text.

(* ================================================================== *)
(** ** Colour classification: [get_color] and the override in [generate] *)

Module Color.
Import Text.

Definition get_color (dept note : string) : string :=
  if contains HUMAN_MARK dept then
    if contains VTR_MARK note then "#2fa0fc" else "#b3e9f8"
  else if contains GLIDER_MARK dept then
    if contains VTR_MARK note then "#00d65b" else "#cbf266"
  else "#c8c8cb".

(** The face colour of a bar: [fc = get_color(...)], replaced by
    ["#9a9a9a"] when the row is flagged commercial. *)
Definition bar_color (dept note : string) (is_cm : bool) : string :=
  let fc := get_color dept note in
  if is_cm then "#9a9a9a" else fc.

End Color.

(* ================================================================== *)
(** ** Row builder: [process_sheet] *)

Module RowBuilder.
Import Text.

(** One spreadsheet row as read.  [raw_dur] is the result of
    [pd.to_numeric(..., errors="coerce")]: [None] stands for NaN (a blank or
    non-numeric cell, or a missing column).  A text cell is [None] when it is
    blank (NaN), which [fillna("")] turns into the empty string, and
    otherwise holds the string that [astype(str)] gives; a missing text
    column is a column of empty strings. *)
Record RawRow : Type := mkRaw {
  raw_dur : option Z;
  raw_team : option string;
  raw_dept : option string;
  raw_remark : option string
}.

(** A row after [dropna], the [> 0] filter and [fillna("").astype(str)]. *)
Record CleanRow : Type := mkClean {
  c_dur : Z;
  c_team : string;
  c_dept : string;
  c_remark : string
}.

Record Segment : Type := mkSeg {
  dur : Z;
  team : string;
  dept : string;
  remark : string;
  is_cm : bool;
  start : Z;
  end_ : Z;
  is_digest : bool
}.

Definition fillna (c : option string) : string :=
  match c with Some s => s | None => "" end.

(** [dropna(subset=[dur])] followed by [df[df[dur] > 0]]. *)
Definition clean (r : RawRow) : option CleanRow :=
  match raw_dur r with
  | None => None
  | Some d =>
      if 0 <? d
      then Some (mkClean d (fillna (raw_team r)) (fillna (raw_dept r))
                         (fillna (raw_remark r)))
      else None
  end.

Fixpoint clean_rows (raw : list RawRow) : list CleanRow :=
  match raw with
  | [] => []
  | r :: rest =>
      match clean r with
      | Some c => c :: clean_rows rest
      | None => clean_rows rest
      end
  end.

(** [mask_cm]: the marker occurs in the team, the remark or the department. *)
Definition mask_cm (c : CleanRow) : bool :=
  contains CM_MARK (c_team c) || contains CM_MARK (c_remark c)
  || contains CM_MARK (c_dept c).

(** [Series.cumsum()]. *)
Fixpoint cumsum_from (acc : Z) (l : list Z) : list Z :=
  match l with
  | [] => []
  | x :: rest => (acc + x) :: cumsum_from (acc + x) rest
  end.

Definition cumsum (l : list Z) : list Z := cumsum_from 0 l.

(** Element-wise arithmetic of two columns of one frame. *)
Fixpoint zip_with (f : Z -> Z -> Z) (a b : list Z) : list Z :=
  match a, b with
  | x :: a', y :: b' => f x y :: zip_with f a' b'
  | _, _ => []
  end.

(** Assemble the frame's columns into records, row by row. *)
Fixpoint build (rows : list CleanRow) (starts ends : list Z) : list Segment :=
  match rows, starts, ends with
  | c :: rows', s :: starts', e :: ends' =>
      mkSeg (c_dur c) (c_team c) (c_dept c) (c_remark c) (mask_cm c) s e
            (contains DIGEST_MARK (c_remark c))
      :: build rows' starts' ends'
  | _, _, _ => []
  end.

Definition process_sheet (raw : list RawRow) (include_cm : bool) : list Segment :=
  let df := clean_rows raw in
  let df := if include_cm then df else filter (fun c => negb (mask_cm c)) df in
  let durs := map c_dur df in
  let starts := zip_with Z.sub (cumsum durs) durs in
  let ends := zip_with Z.add starts durs in
  build df starts ends.

End RowBuilder.

(* ================================================================== *)
(** ** Segment merger: the two passes of [generate] *)

Module Merger.
Import Text RowBuilder.

(** A team span [(team, start, end)]. *)
Definition Span : Type := (string * Z * Z)%type.

(** The loop state: the list [merged] and the open run.  [cur = None] is
    [cur_team is None]; the source reads [cur_s] and [cur_e] only while
    [cur_team] is a string. *)
Record MergeState : Type := mkMS {
  merged : list Span;
  cur : option Span
}.

Definition close_run (st : MergeState) : list Span :=
  match cur st with
  | Some sp => merged st ++ [sp]
  | None => merged st
  end.

Definition team_step (st : MergeState) (r : Segment) : MergeState :=
  if is_digest r then mkMS (close_run st) None
  else if is_cm r then mkMS (close_run st) None
  else match cur st with
       | Some (t, s, e) =>
           if String.eqb (team r) t
           then mkMS (merged st) (Some (t, s, end_ r))
           else mkMS (merged st ++ [(t, s, e)]) (Some (team r, start r, end_ r))
       | None => mkMS (merged st) (Some (team r, start r, end_ r))
       end.

Definition team_loop (st : MergeState) (segs : list Segment) : MergeState :=
  fold_left team_step segs st.

(** After the loop: [if cur_team: merged.append(...)]. *)
Definition team_finish (st : MergeState) : list Span :=
  match cur st with
  | Some (t, s, e) => if truthy t then merged st ++ [(t, s, e)] else merged st
  | None => merged st
  end.

Definition team_merge (segs : list Segment) : list Span :=
  team_finish (team_loop (mkMS [] None) segs).

(** A digest group [(start, end, count)]. *)
Definition Group : Type := (Z * Z * Z)%type.

(** The digest pass.  The outer recursion is the loop on [i]; the inner
    [scan] is the loop on [j], carrying the end of row [j] and [j - i + 1].
    When [scan] stops at a row that is not a digest row, the outer loop
    resumes at that row ([i = j + 1]). *)
Fixpoint digest_groups (segs : list Segment) : list Group :=
  match segs with
  | [] => []
  | r :: rest =>
      if is_digest r then
        (fix scan (e : Z) (cnt : Z) (l : list Segment) {struct l} : list Group :=
           match l with
           | [] => [(start r, e, cnt)]
           | r' :: l' =>
               if is_digest r' then scan (end_ r') (cnt + 1) l'
               else (start r, e, cnt) :: digest_groups l
           end) (end_ r) 1 rest
      else digest_groups rest
  end.

End Merger.

(* ================================================================== *)
(** ** Label layout: [need_sec], the fits-inside test,
       [draw_row_outside_labels] and [place_band] *)

Module Layout.
Import Text RowBuilder Merger.
Local Open Scope Q_scope.

(** Python's [max(a, b)] and [min(a, b)] on numbers: the first argument
    unless the second is strictly larger (smaller). *)
Definition Qlt_bool (a b : Q) : bool := negb (Qle_bool b a).
Definition qmax (a b : Q) : Q := if Qlt_bool a b then b else a.
Definition qmin (a b : Q) : Q := if Qlt_bool b a then b else a.

(** An entry of [row_outside].  [italic] is [style == "italic"]; the only
    other style the source stores is [None]. *)
Record Request : Type := mkReq {
  label : string;
  anchor_x : Q;
  pref_x : Q;
  width : Q;
  italic : bool
}.

Definition axis_len : Q := 7200.
(** [fig.get_size_inches()[0] * fig.dpi] for [figsize=(18, _)], [dpi=150]. *)
Definition fig_w_px : Q := 18 * 150.
Definition sec_per_px : Q := axis_len / fig_w_px.

(** [need_sec(label)]: [tw label] is the width in pixels of the rendered
    text's bounding box. *)
Definition need_sec (tw : string -> Q) (lbl : string) : Q :=
  tw lbl * sec_per_px + 6.

(** What the labelling loops of [generate] do with one span. *)
Inductive LabelDecision : Type :=
| Skipped
| Inside (text : string) (xc : Q) (it : bool)
| Queued (r : Request).

Definition decide_label (tw : string -> Q) (lbl : string) (s e : Z) (it : bool)
  : LabelDecision :=
  let L := inject_Z (e - s) in
  let xc := inject_Z (s + e) / 2 in
  if Qlt_bool (need_sec tw lbl) L then Inside lbl xc it
  else Queued (mkReq lbl xc (inject_Z e + 6) (need_sec tw lbl) it).

Definition decide_team (tw : string -> Q) (sp : Span) : LabelDecision :=
  let '(t, s, e) := sp in
  if is_blank t then Skipped else decide_label tw t s e false.

Definition digest_label (n : Z) : string :=
  ("ダイジェスト: 計" ++ NilZero.string_of_int (Z.to_int n) ++ "チーム")%string.

Definition decide_digest (tw : string -> Q) (g : Group) : LabelDecision :=
  let '(s, e, n) := g in decide_label tw (digest_label n) s e true.

Definition queued_of (d : LabelDecision) : list Request :=
  match d with Queued r => [r] | _ => [] end.

(** [row_outside] when both labelling loops are done: team spans first,
    digest groups after them. *)
Definition row_outside (tw : string -> Q) (segs : list Segment) : list Request :=
  (flat_map (fun sp => queued_of (decide_team tw sp)) (team_merge segs)
   ++ flat_map (fun g => queued_of (decide_digest tw g)) (digest_groups segs))%list.

(** *** Lane assignment *)

Definition bar_half : Q := 35 # 100.
Definition gap : Q := 12 # 100.
Definition lane_spacing : Q := 22 # 100.
Definition min_gap : Q := 10.
Definition left_margin : Q := 8.
Definition right_margin : Q := 12.

(** One [ax.text] with its leader line ([ax.annotate]). *)
Record Placement : Type := mkPl {
  pl_req : Request;
  pl_dir : Z;
  pl_lane : nat;
  pl_x : Q;
  pl_y : Q
}.

(** The variables of [draw_row_outside_labels] that [place_band] updates,
    and the labels drawn so far. *)
Record RowState : Type := mkRS {
  top_max_y : Q;
  bottom_min_y : Q;
  drawn : list Placement
}.

(** The inner [for i, endx in enumerate(lane_end)] with its [break]: the
    first lane that takes the label, the position there and the updated
    [lane_end]; [None] when the loop ends with [placed] still false. *)
Fixpoint try_lanes (x0 w lim : Q) (i : nat) (lanes : list Q)
  : option (nat * Q * list Q) :=
  match lanes with
  | [] => None
  | endx :: rest =>
      let x_try := qmax x0 (endx + min_gap) in
      if Qle_bool x_try lim then Some (i, x_try, (x_try + w) :: rest)
      else match try_lanes x0 w lim (S i) rest with
           | Some (j, x, rest') => Some (j, x, endx :: rest')
           | None => None
           end
  end.

Definition record_label (d : Request) (direction : Z) (i : nat) (x y : Q)
           (rs : RowState) : RowState :=
  let p := mkPl d direction i x y in
  if (0 <? direction)%Z
  then mkRS (qmax (top_max_y rs) y) (bottom_min_y rs) (drawn rs ++ [p])
  else mkRS (top_max_y rs) (qmin (bottom_min_y rs) y) (drawn rs ++ [p]).

Definition lane_y (base_y : Q) (direction : Z) (i : nat) : Q :=
  base_y + inject_Z direction * (inject_Z (Z.of_nat i) * lane_spacing).

(** The body of [for d in band_items]. *)
Definition place_one (xmin xmax base_y : Q) (direction : Z)
           (st : list Q * RowState) (d : Request) : list Q * RowState :=
  let '(lane_end, rs) := st in
  let w := width d in
  let x0 := qmax (xmin + left_margin) (qmin (pref_x d) (xmax - w - right_margin)) in
  match try_lanes x0 w (xmax - w - right_margin) 0 lane_end with
  | Some (i, x_try, lane_end') =>
      (lane_end', record_label d direction i x_try (lane_y base_y direction i) rs)
  | None =>
      let i := List.length lane_end in
      ((lane_end ++ [x0 + w])%list, record_label d direction i x0 (lane_y base_y direction i) rs)
  end.

Definition band_loop (xmin xmax y_base : Q) (direction : Z)
           (band_items : list Request) (rs : RowState) : list Q * RowState :=
  let base_y :=
    y_base + (if (0 <? direction)%Z then bar_half + gap else - (bar_half + gap)) in
  fold_left (place_one xmin xmax base_y direction) band_items ([], rs).

Definition place_band (xmin xmax y_base : Q) (direction : Z)
           (band_items : list Request) (rs : RowState) : RowState :=
  match band_items with
  | [] => rs
  | _ => snd (band_loop xmin xmax y_base direction band_items rs)
  end.

(** [sorted(items, key=anchor_x)]: the stable sort, as insertion from the
    right; an item goes before the first one whose key is not smaller. *)
Fixpoint insert_by_anchor (d : Request) (l : list Request) : list Request :=
  match l with
  | [] => [d]
  | h :: t =>
      if Qlt_bool (anchor_x h) (anchor_x d) then h :: insert_by_anchor d t
      else d :: h :: t
  end.

Fixpoint sorted_by_anchor (items : list Request) : list Request :=
  match items with
  | [] => []
  | d :: rest => insert_by_anchor d (sorted_by_anchor rest)
  end.

(** [for i, d in enumerate(items)]: even positions to the top band. *)
Fixpoint split_parity (i : nat) (items : list Request)
  : list Request * list Request :=
  match items with
  | [] => ([], [])
  | d :: rest =>
      let '(top_items, bottom_items) := split_parity (S i) rest in
      if Nat.even i then (d :: top_items, bottom_items)
      else (top_items, d :: bottom_items)
  end.

Definition draw_row_outside_labels (items : list Request) (y_base xmin xmax : Q)
  : RowState :=
  let rs := mkRS (y_base + bar_half) (y_base - bar_half) [] in
  match items with
  | [] => rs
  | _ =>
      let items := sorted_by_anchor items in
      let '(top_items, bottom_items) := split_parity 0 items in
      let rs := place_band xmin xmax y_base 1 top_items rs in
      place_band xmin xmax y_base (-1) bottom_items rs
  end.

(** The call in [generate] for one row. *)
Definition row_layout (tw : string -> Q) (segs : list Segment) (y0 : Q) : RowState :=
  draw_row_outside_labels (row_outside tw segs) y0 0 7200.

End Layout.

(* ================================================================== *)
(** ** Bars, the loop over the sheets and the vertical limits *)

Module Render.
Import Text Color RowBuilder Merger Layout.
Local Open Scope Q_scope.

(** One [ax.broken_barh] of the bar loop: the bar [(start, dur)], its face
    colour, and the position of the overlay text of a commercial bar, which
    is drawn only with [include_cm]. *)
Record Bar : Type := mkBar {
  bar_x : Z;
  bar_w : Z;
  bar_fc : string;
  bar_cm_text : option Q
}.

Definition draw_bar (include_cm : bool) (r : Segment) : Bar :=
  let fc := bar_color (dept r) (remark r) (is_cm r) in
  mkBar (start r) (dur r) fc
        (if include_cm && is_cm r
         then Some (inject_Z (start r + end_ r) / 2)
         else None).

Definition draw_bars (include_cm : bool) (segs : list Segment) : list Bar :=
  map (draw_bar include_cm) segs.

(** The labels drawn inside bars by the two labelling loops. *)
Definition inside_of (d : LabelDecision) : list (string * Q * bool) :=
  match d with Inside text xc it => [(text, xc, it)] | _ => [] end.

Definition row_inside (tw : string -> Q) (segs : list Segment)
  : list (string * Q * bool) :=
  (flat_map (fun sp => inside_of (decide_team tw sp)) (team_merge segs)
   ++ flat_map (fun g => inside_of (decide_digest tw g)) (digest_groups segs))%list.

Definition row_h : Q := 16 # 10.

(** What is drawn for one sheet, at height [rd_y0]. *)
Record RowDrawing : Type := mkRD {
  rd_y0 : Q;
  rd_bars : list Bar;
  rd_inside : list (string * Q * bool);
  rd_layout : RowState
}.

(** The state of [for sheet in sheets]: [y0], the pair
    [(global_bottom, global_top)] ([None] while the two names are unbound,
    which is also when [ax._ylim_tracker] is not set), and the rows drawn. *)
Record GenState : Type := mkGS {
  g_y0 : Q;
  g_extent : option (Q * Q);
  g_rows : list RowDrawing
}.

Definition generate_row (tw : string -> Q) (include_cm : bool)
           (st : GenState) (segs : list Segment) : GenState :=
  let y0 := g_y0 st in
  let rs := row_layout tw segs y0 in
  let row_top := top_max_y rs in
  let row_bottom := bottom_min_y rs in
  let ext :=
    match g_extent st with
    | Some (global_bottom, global_top) =>
        (qmin global_bottom row_bottom, qmax global_top row_top)
    | None => (row_bottom, row_top)
    end in
  mkGS (y0 + row_h) (Some ext)
       (g_rows st
        ++ [mkRD y0 (draw_bars include_cm segs) (row_inside tw segs) rs])%list.

Definition generate_rows (tw : string -> Q) (include_cm : bool)
           (sheets : list (list Segment)) : GenState :=
  fold_left (generate_row tw include_cm) sheets (mkGS 0 None []).

(** The arguments of [ax.set_ylim]. *)
Definition y_limits (st : GenState) : Q * Q :=
  match g_extent st with
  | Some (gb, gt) => (gb - (25 # 100), gt + (25 # 100))
  | None => (- (8 # 10), g_y0 st + (8 # 10))
  end.

End Render.

(* ================================================================== *)
(** ** Font selection: [_setup_japanese_font] *)

Module Fonts.

(** What the function asks of the system.  [addfont p] is false when
    [fontManager.addfont(p)] raises; [font_name f] is
    [FontProperties(fname=f).get_name()], [None] when it raises;
    [system_fonts] is the concatenation of the two [findSystemFonts] results,
    [None] when one of the calls raises. *)
Record FontEnv : Type := mkEnv {
  isfile : string -> bool;
  addfont : string -> bool;
  font_name : string -> option string;
  system_fonts : option (list string)
}.

(** The two [rcParams] entries the function writes. *)
Record RcParams : Type := mkRc {
  font_family : list string;
  font_sans_serif : list string
}.

Definition candidates_paths : list string :=
  [ "/usr/share/fonts/opentype/noto/NotoSansCJK-Regular.ttc";
    "/usr/share/fonts/opentype/noto/NotoSansCJKjp-Regular.otf";
    "/usr/share/fonts/noto/NotoSansCJK-Regular.ttc";
    "/usr/share/fonts/noto/NotoSansCJKjp-Regular.otf" ].

Definition candidates_names : list string :=
  [ "Noto Sans CJK JP"; "Noto Sans CJK"; "Noto Sans JP"; "Source Han Sans JP";
    "IPAGothic"; "TakaoGothic"; "VL Gothic" ].

(** Step 1: the first path that is a file, registers and has a name. *)
Fixpoint try_paths (env : FontEnv) (paths : list string) : option string :=
  match paths with
  | [] => None
  | p :: rest =>
      if isfile env p then
        if addfont env p then
          match font_name env p with
          | Some name => Some name
          | None => try_paths env rest
          end
        else try_paths env rest
      else try_paths env rest
  end.

(** The keys of [installed]: the names of the files whose name can be read. *)
Fixpoint installed_names (env : FontEnv) (files : list string) : list string :=
  match files with
  | [] => []
  | f :: rest =>
      match font_name env f with
      | Some n => n :: installed_names env rest
      | None => installed_names env rest
      end
  end.

Definition name_in (installed : list string) (name : string) : bool :=
  existsb (String.eqb name) installed.

(** Step 2: the first candidate name among the installed ones. *)
Definition detect_installed (env : FontEnv) : option string :=
  match system_fonts env with
  | None => None
  | Some files => find (name_in (installed_names env files)) candidates_names
  end.

Definition setup_japanese_font (env : FontEnv) (rc : RcParams) : RcParams :=
  match try_paths env candidates_paths with
  | Some name => mkRc [name] (font_sans_serif rc)
  | None =>
      match detect_installed env with
      | Some name => mkRc [name] (font_sans_serif rc)
      | None => mkRc ["sans-serif"] (candidates_names ++ font_sans_serif rc)
      end
  end.

End Fonts.

(* ================================================================== *)
(** ** Auxiliary notions used in the statements *)

Import Text Color RowBuilder Merger Layout Render Fonts.

(** The rows of the frame when offsets are computed. *)
Definition kept_rows (include_cm : bool) (raw : list RawRow) : list CleanRow :=
  let df := clean_rows raw in
  if include_cm then df else filter (fun c => negb (mask_cm c)) df.

(** Offsets by a running total: the row-by-row reading of the three column
    operations of [process_sheet]. *)
Fixpoint offsets_from (acc : Z) (rows : list CleanRow) : list Segment :=
  match rows with
  | [] => []
  | c :: rest =>
      mkSeg (c_dur c) (c_team c) (c_dept c) (c_remark c) (mask_cm c)
            acc (acc + c_dur c) (contains DIGEST_MARK (c_remark c))
      :: offsets_from (acc + c_dur c) rest
  end.

Definition sum_durs (segs : list Segment) : Z :=
  fold_right Z.add 0 (map dur segs).

(** The commercial test on a row as read. *)
Definition raw_mask_cm (r : RawRow) : bool :=
  contains CM_MARK (fillna (raw_team r))
  || contains CM_MARK (fillna (raw_remark r))
  || contains CM_MARK (fillna (raw_dept r)).


(** A row that survives cleaning. *)
Definition raw_valid (r : RawRow) : bool :=
  match raw_dur r with Some d => 0 <? d | None => false end.

(** [in_run t r]: segment [r] can belong to a team run labelled [t]. *)
Definition in_run (t : string) (r : Segment) : bool :=
  negb (is_digest r) && negb (is_cm r) && String.eqb (team r) t.

Definition first_seg (l : list Segment) : option Segment :=
  match l with [] => None | r :: _ => Some r end.

Fixpoint last_seg (l : list Segment) : option Segment :=
  match l with
  | [] => None
  | [r] => Some r
  | _ :: rest => last_seg rest
  end.

(** No segment next to the run could extend it. *)
Definition bounded_by (p : Segment -> bool) (neighbour : option Segment) : bool :=
  match neighbour with None => true | Some r => negb (p r) end.

Definition start_of (l : list Segment) : Z :=
  match first_seg l with Some r => start r | None => 0 end.

Definition end_of (l : list Segment) : Z :=
  match last_seg l with Some r => end_ r | None => 0 end.


(** The inner loop of [digest_groups] as a function of its own: the group
    opened at [s], ending at [e] so far, with [cnt] members. *)
Fixpoint digest_scan (s e cnt : Z) (l : list Segment) : list Group :=
  match l with
  | [] => [(s, e, cnt)]
  | r' :: l' =>
      if is_digest r' then digest_scan s (end_ r') (cnt + 1) l'
      else (s, e, cnt) :: digest_groups l
  end.

Definition set_team (t : string) (r : Segment) : Segment :=
  mkSeg (dur r) t (dept r) (remark r) (is_cm r) (start r) (end_ r) (is_digest r).





(** Every placement of band [direction] ends at or before the recorded end
    of its lane. *)
Definition lane_covers (direction : Z) (lanes : list Q) (ps : list Placement) : Prop :=
  Forall (fun p => pl_dir p = direction ->
                   exists endx, nth_error lanes (pl_lane p) = Some endx
                                /\ (pl_x p + width (pl_req p) <= endx)%Q) ps.

(** [p1], drawn before [p2] in the same lane of the same band, ends at least
    [min_gap] before [p2] begins. *)
Definition gap_ok (p1 p2 : Placement) : Prop :=
  pl_dir p1 = pl_dir p2 -> pl_lane p1 = pl_lane p2 ->
  (pl_x p1 + width (pl_req p1) + min_gap <= pl_x p2)%Q.

(** A request whose preferred position is the right end of the axis. *)
Definition crowd_request : Request := mkReq "X" 7200%Q 7200%Q 100%Q false.

(** Where [crowd_request] is put in a fresh lane, and where that lane then ends. *)
Definition crowd_x : Q :=
  Eval vm_compute in
    qmax (0 + left_margin) (qmin 7200 (7200 - 100 - right_margin))%Q.
Definition crowd_end : Q := Eval vm_compute in (crowd_x + 100)%Q.

(** A stand-in for the renderer: five pixels for each byte of the text. *)
Definition five_px_per_byte (l : string) : Q :=
  (inject_Z (Z.of_nat (String.length l)) * 5)%Q.

(** The cells of a segment that come from the sheet, and the same cells of
    a row as read. *)
Definition seg_fields (s : Segment) : Z * string * string * string :=
  (dur s, team s, dept s, remark s).

Definition raw_fields (r : RawRow) : Z * string * string * string :=
  (match raw_dur r with Some d => d | None => 0 end,
   fillna (raw_team r), fillna (raw_dept r), fillna (raw_remark r)).

(** The rows that reach the offsets. *)
Definition raw_kept (include_cm : bool) (r : RawRow) : bool :=
  raw_valid r && (include_cm || negb (raw_mask_cm r)).


Definition span_team (sp : Span) : string := fst (fst sp).



(** [sp] is the span of the block [run] of [pre ++ run ++ post], a block that
    cannot be extended on either side. *)
Definition run_span (pre run post : list Segment) (sp : Span) : Prop :=
  run <> []
  /\ forallb (in_run (span_team sp)) run = true
  /\ bounded_by (in_run (span_team sp)) (last_seg pre) = true
  /\ bounded_by (in_run (span_team sp)) (first_seg post) = true
  /\ sp = (span_team sp, start_of run, end_of run).

Definition grp_count (g : Group) : Z := snd g.

Definition sum_counts (gs : list Group) : Z :=
  fold_right Z.add 0 (map grp_count gs).

(** What [place_one] decides for a request: the lane, the position and the
    lane ends afterwards. *)
Definition chosen (xmin xmax : Q) (lanes : list Q) (d : Request) : nat * Q * list Q :=
  let w := width d in
  let x0 := qmax (xmin + left_margin) (qmin (pref_x d) (xmax - w - right_margin)) in
  match try_lanes x0 w (xmax - w - right_margin) 0 lanes with
  | Some r => r
  | None => (List.length lanes, x0, lanes ++ [(x0 + w)%Q])
  end.

(** The height of the first lane of a band. *)
Definition band_base (y_base : Q) (direction : Z) : Q :=
  (y_base + (if 0 <? direction then bar_half + gap else - (bar_half + gap)))%Q.

(** The extents returned for a row enclose the bar and the labels drawn. *)
Definition extents_ok (y_base : Q) (rs : RowState) : Prop :=
  (bottom_min_y rs <= y_base - bar_half)%Q
  /\ (y_base + bar_half <= top_max_y rs)%Q
  /\ Forall (fun p => (bottom_min_y rs <= pl_y p)%Q /\ (pl_y p <= top_max_y rs)%Q)
            (drawn rs).

(** A system with the second candidate file, and one with two candidate
    fonts installed under other paths. *)
Definition env_with_file : FontEnv :=
  mkEnv (String.eqb "/usr/share/fonts/opentype/noto/NotoSansCJKjp-Regular.otf")
        (fun _ => true) (fun _ => Some "Noto Sans CJK JP") (Some []).

Definition env_with_installed : FontEnv :=
  mkEnv (fun _ => false) (fun _ => true)
        (fun f => if String.eqb f "/fonts/a.ttf" then Some "TakaoGothic"
                  else if String.eqb f "/fonts/b.otf" then Some "IPAGothic"
                  else None)
        (Some ["/fonts/broken.ttf"; "/fonts/a.ttf"; "/fonts/b.otf"]).




(** The spans closed so far are blocks of the segments read, [P]; the open
    run is the block at the end of [P]. *)
Definition closed_runs (P : list Segment) (m : list Span) : Prop :=
  Forall (fun sp => exists pre run post,
              P = pre ++ run ++ post /\ post <> [] /\ run_span pre run post sp) m.

Definition open_run (P : list Segment) (c : option Span) : Prop :=
  match c with
  | Some sp => exists pre run, P = pre ++ run /\ run_span pre run [] sp
  | None => forall t, bounded_by (in_run t) (last_seg P) = true
  end.

(** [g] is the group of the block [run] of [pre ++ run ++ post], a block of
    digest segments that cannot be extended on either side. *)
Definition group_run (pre run post : list Segment) (g : Group) : Prop :=
  run <> []
  /\ forallb is_digest run = true
  /\ bounded_by is_digest (last_seg pre) = true
  /\ bounded_by is_digest (first_seg post) = true
  /\ g = (start_of run, end_of run, Z.of_nat (List.length run)).

(** The scenario sheets of the specification. *)
Definition row_of (d : Z) (t rm : string) : RawRow :=
  mkRaw (Some d) (Some t) None (Some rm).

Definition sheet_commercial : list RawRow :=
  [row_of 600 "A" ""; row_of 300 "A" ""; row_of 100 "B" "CM"].

Definition digest_seg (t : string) (s d : Z) : Segment :=
  mkSeg d t "" DIGEST_MARK false s (s + d) true.


(** A sheet with one wide bar and four bars of a few seconds. *)
Definition sheet_narrow : list RawRow :=
  [row_of 600 "A" ""; row_of 3 "BB" ""; row_of 4 "CC" ""; row_of 5 "DD" "";
   row_of 2 "EE" ""].

(* ================================================================== *)
(** ** Row builder *)

Section RowBuilderFacts.

Lemma columns_as_offsets (rows : list CleanRow) : forall acc,
  build rows
        (zip_with Z.sub (cumsum_from acc (map c_dur rows)) (map c_dur rows))
        (zip_with Z.add
           (zip_with Z.sub (cumsum_from acc (map c_dur rows)) (map c_dur rows))
           (map c_dur rows))
  = offsets_from acc rows.
Proof.
  induction rows as [|c rows IH]; intro acc; simpl; [reflexivity|].
  rewrite IH. f_equal. f_equal; lia.
Qed.

Lemma process_sheet_offsets raw inc :
  process_sheet raw inc = offsets_from 0 (kept_rows inc raw).
Proof. unfold process_sheet, kept_rows, cumsum. apply columns_as_offsets. Qed.


Lemma clean_rows_positive raw : Forall (fun c => 0 < c_dur c) (clean_rows raw).
Proof.
  induction raw as [|r raw IH]; simpl; [constructor|].
  unfold clean. destruct (raw_dur r) as [d|]; [|exact IH].
  destruct (0 <? d) eqn:E; [|exact IH].
  constructor; [simpl; lia | exact IH].
Qed.

Lemma kept_rows_positive inc raw : Forall (fun c => 0 < c_dur c) (kept_rows inc raw).
Proof.
  unfold kept_rows. pose proof (clean_rows_positive raw) as H.
  destruct inc; [exact H|].
  rewrite Forall_forall in *. intros c Hc. apply filter_In in Hc. apply H, Hc.
Qed.

Lemma offsets_from_dur (rows : list CleanRow) : forall acc,
  Forall (fun c => 0 < c_dur c) rows ->
  Forall (fun s => 0 < dur s) (offsets_from acc rows).
Proof.
  induction rows as [|c rows IH]; intros acc H; simpl; [constructor|].
  inversion H; subst. constructor; [assumption | apply IH; assumption].
Qed.

Lemma process_sheet_positive raw inc :
  Forall (fun s => 0 < dur s) (process_sheet raw inc).
Proof.
  rewrite process_sheet_offsets. apply offsets_from_dur, kept_rows_positive.
Qed.

End RowBuilderFacts.



Section CommercialFacts.

Lemma clean_mask_cm r c : clean r = Some c -> mask_cm c = raw_mask_cm r.
Proof.
  unfold clean. destruct (raw_dur r) as [d|]; [|discriminate].
  destruct (0 <? d); [|discriminate].
  intro H; inversion H; reflexivity.
Qed.

Lemma kept_rows_drop_cm raw :
  kept_rows false raw
  = kept_rows true (filter (fun r => negb (raw_mask_cm r)) raw).
Proof.
  unfold kept_rows. induction raw as [|r raw IH]; simpl; [reflexivity|].
  destruct (clean r) as [c|] eqn:E.
  - simpl. rewrite (clean_mask_cm _ _ E).
    destruct (raw_mask_cm r); simpl; [exact IH|].
    rewrite E, IH. reflexivity.
  - destruct (raw_mask_cm r); simpl; [exact IH|]. rewrite E. exact IH.
Qed.

Lemma offsets_from_flags (rows : list CleanRow) (p : bool -> Prop) : forall acc,
  Forall (fun c => p (mask_cm c)) rows ->
  Forall (fun s => p (is_cm s)) (offsets_from acc rows).
Proof.
  induction rows as [|c rows IH]; intros acc H; simpl; [constructor|].
  inversion H; subst. constructor; [assumption | apply IH; assumption].
Qed.

Lemma process_sheet_no_cm raw :
  Forall (fun s => is_cm s = false) (process_sheet raw false).
Proof.
  rewrite process_sheet_offsets.
  apply (offsets_from_flags _ (fun b => b = false)).
  unfold kept_rows. rewrite Forall_forall. intros c Hc.
  apply filter_In in Hc. destruct Hc as [_ Hc].
  now apply negb_true_iff.
Qed.

End CommercialFacts.

(** C5.  Without [include_cm], commercial rows leave the frame before the
    offsets are computed: the result is the one obtained from the sheet
    with its commercial rows deleted, and it has no commercial segment.
    For the sheet (600, A), (300, A), (100, B, commercial) the team spans
    are [(A, 0, 900)] and the timeline ends at 900. *)
Theorem commercials_dropped_before_offsets :
  (forall raw,
      process_sheet raw false
      = process_sheet (filter (fun r => negb (raw_mask_cm r)) raw) true)
  /\ (forall raw, Forall (fun s => is_cm s = false) (process_sheet raw false))
  /\ team_merge (process_sheet sheet_commercial false) = [("A", 0, 900)]
  /\ map end_ (process_sheet sheet_commercial false) = [600; 900]
  /\ sum_durs (process_sheet sheet_commercial false) = 900
  /\ map end_ (process_sheet sheet_commercial true) = [600; 900; 1000].
Proof.
  split.
  { intro raw. rewrite !process_sheet_offsets, kept_rows_drop_cm. reflexivity. }
  split; [exact process_sheet_no_cm|].
  repeat split; reflexivity.
Qed.

(** C7.  The bar colour is a function of the department, the remark and the
    commercial flag.  A commercial bar is #9a9a9a.  Otherwise the first
    matching rule decides: department with the human-powered marker, #2fa0fc
    with VTR in the remark and #b3e9f8 without; department with the glider
    marker, #00d65b with VTR and #cbf266 without; else #c8c8cb. *)
Theorem bar_color_table (d n : string) (cm : bool) :
  (cm = true -> bar_color d n cm = "#9a9a9a")
  /\ (cm = false -> contains HUMAN_MARK d = true ->
      bar_color d n cm = if contains VTR_MARK n then "#2fa0fc" else "#b3e9f8")
  /\ (cm = false -> contains HUMAN_MARK d = false -> contains GLIDER_MARK d = true ->
      bar_color d n cm = if contains VTR_MARK n then "#00d65b" else "#cbf266")
  /\ (cm = false -> contains HUMAN_MARK d = false -> contains GLIDER_MARK d = false ->
      bar_color d n cm = "#c8c8cb")
  /\ (forall d' n' cm', d = d' -> n = n' -> cm = cm' ->
      bar_color d n cm = bar_color d' n' cm').
Proof.
  unfold bar_color, get_color. repeat split.
  - intros ->. reflexivity.
  - intros -> ->. reflexivity.
  - intros -> -> ->. reflexivity.
  - intros -> -> ->. reflexivity.
  - intros d' n' cm' -> -> ->. reflexivity.
Qed.

Lemma bar_color_table_witness :
  bar_color "人力プロペラ機" "VTR" true = "#9a9a9a"
  /\ bar_color "人力プロペラ機" "VTR" false = "#2fa0fc"
  /\ bar_color "人力プロペラ機" "" false = "#b3e9f8"
  /\ bar_color "滑空機" "VTR" false = "#00d65b"
  /\ bar_color "滑空機" "" false = "#cbf266"
  /\ bar_color "" "VTR" false = "#c8c8cb".
Proof.
  split; [apply (bar_color_table "人力プロペラ機" "VTR" true); reflexivity|].
  split; [apply (bar_color_table "人力プロペラ機" "VTR" false); reflexivity|].
  split; [apply (bar_color_table "人力プロペラ機" "" false); reflexivity|].
  split; [apply (bar_color_table "滑空機" "VTR" false); reflexivity|].
  split; [apply (bar_color_table "滑空機" "" false); reflexivity|].
  apply (bar_color_table "" "VTR" false); reflexivity.
Defined.

(* ================================================================== *)
(** ** Digest pass *)

Section DigestFacts.

Lemma digest_groups_cons r rest :
  digest_groups (r :: rest)
  = if is_digest r then digest_scan (start r) (end_ r) 1 rest
    else digest_groups rest.
Proof.
  assert (H : forall l e cnt,
             (fix scan (e : Z) (cnt : Z) (l : list Segment) {struct l} : list Group :=
                match l with
                | [] => [(start r, e, cnt)]
                | r' :: l' =>
                    if is_digest r' then scan (end_ r') (cnt + 1) l'
                    else (start r, e, cnt) :: digest_groups l
                end) e cnt l
             = digest_scan (start r) e cnt l).
  { induction l as [|r' l IH]; intros e cnt; [reflexivity|].
    cbn [digest_scan]. destruct (is_digest r'); [apply IH | reflexivity]. }
  cbn [digest_groups]. destruct (is_digest r); [apply H | reflexivity].
Qed.

Lemma last_seg_cons r l : l <> [] -> last_seg (r :: l) = last_seg l.
Proof. destruct l; [congruence | reflexivity]. Qed.

Lemma last_seg_app l r : last_seg (l ++ [r]) = Some r.
Proof.
  induction l as [|x l IH]; [reflexivity|].
  change ((x :: l) ++ [r]) with (x :: (l ++ [r])).
  rewrite last_seg_cons; [exact IH | now destruct l].
Qed.

Lemma last_seg_none l : last_seg l = None -> l = [].
Proof.
  induction l as [|x l IH]; [reflexivity|].
  destruct l as [|y l]; [discriminate|].
  rewrite last_seg_cons by discriminate. intro H. discriminate (IH H).
Qed.

Lemma last_end_cons r run e :
  match last_seg (r :: run) with Some x => end_ x | None => e end
  = match last_seg run with Some x => end_ x | None => end_ r end.
Proof.
  destruct run as [|r1 run]; [reflexivity|].
  rewrite last_seg_cons by discriminate.
  destruct (last_seg (r1 :: run)) eqn:E; [reflexivity|].
  discriminate (last_seg_none _ E).
Qed.

Lemma digest_scan_run (run : list Segment) : forall post s e cnt,
  forallb is_digest run = true ->
  bounded_by is_digest (first_seg post) = true ->
  digest_scan s e cnt (run ++ post)
  = (s, match last_seg run with Some r => end_ r | None => e end,
     cnt + Z.of_nat (List.length run)) :: digest_groups post.
Proof.
  induction run as [|r run IH]; intros post s e cnt Hrun Hpost.
  - simpl. rewrite Z.add_0_r. destruct post as [|p post]; [reflexivity|].
    simpl in Hpost. apply negb_true_iff in Hpost.
    cbn [digest_scan]. rewrite Hpost. reflexivity.
  - simpl in Hrun. apply andb_true_iff in Hrun as [Hr Hrun].
    cbn [app digest_scan]. rewrite Hr. rewrite (IH post _ _ _ Hrun Hpost).
    rewrite last_end_cons. f_equal. f_equal.
    cbn [List.length]. lia.
Qed.

Lemma digest_app_boundary (pre : list Segment) rest :
  bounded_by is_digest (last_seg pre) = true ->
  digest_groups (pre ++ rest) = digest_groups pre ++ digest_groups rest
  /\ (pre <> [] -> forall s e c,
        digest_scan s e c (pre ++ rest)
        = digest_scan s e c pre ++ digest_groups rest).
Proof.
  induction pre as [|r pre IH]; intro Hb.
  - split; [reflexivity | congruence].
  - assert (Hg : digest_groups ((r :: pre) ++ rest)
                 = digest_groups (r :: pre) ++ digest_groups rest).
    { change ((r :: pre) ++ rest) with (r :: (pre ++ rest)).
      rewrite !digest_groups_cons.
      destruct pre as [|r1 pre].
      - simpl in Hb. apply negb_true_iff in Hb. rewrite Hb. reflexivity.
      - rewrite last_seg_cons in Hb by discriminate.
        destruct (IH Hb) as [IH1 IH2].
        destruct (is_digest r); [apply IH2; discriminate | exact IH1]. }
    split; [exact Hg|]. intros _ s e c.
    change ((r :: pre) ++ rest) with (r :: (pre ++ rest)).
    cbn [digest_scan]. destruct (is_digest r) eqn:Hr.
    + destruct pre as [|r1 pre].
      * simpl in Hb. rewrite Hr in Hb. discriminate.
      * rewrite last_seg_cons in Hb by discriminate.
        apply (IH Hb). discriminate.
    + change (r :: (pre ++ rest)) with ((r :: pre) ++ rest).
      rewrite Hg. reflexivity.
Qed.

Lemma digest_groups_run pre run post :
  run <> [] ->
  forallb is_digest run = true ->
  bounded_by is_digest (last_seg pre) = true ->
  bounded_by is_digest (first_seg post) = true ->
  digest_groups (pre ++ run ++ post)
  = digest_groups pre
    ++ (start_of run, end_of run, Z.of_nat (List.length run)) :: digest_groups post.
Proof.
  intros Hne Hrun Hpre Hpost.
  destruct (digest_app_boundary pre (run ++ post) Hpre) as [-> _]. f_equal.
  destruct run as [|r run]; [congruence|].
  change ((r :: run) ++ post) with (r :: (run ++ post)).
  rewrite digest_groups_cons.
  simpl in Hrun. apply andb_true_iff in Hrun as [Hr Hrun]. rewrite Hr.
  rewrite (digest_scan_run run post _ _ _ Hrun Hpost).
  unfold start_of, end_of. cbn [first_seg]. rewrite (last_end_cons r run 0).
  f_equal. f_equal. cbn [List.length]. lia.
Qed.

Lemma digest_groups_ext (a : list Segment) : forall b,
  Forall2 (fun x y => is_digest x = is_digest y /\ start x = start y
                      /\ end_ x = end_ y) a b ->
  digest_groups a = digest_groups b
  /\ forall s e c, digest_scan s e c a = digest_scan s e c b.
Proof.
  induction a as [|x a IH]; intros b H; inversion H; subst.
  - split; reflexivity.
  - destruct H2 as (Hd & Hs & He). destruct (IH _ H4) as [IH1 IH2].
    assert (Hg : digest_groups (x :: a) = digest_groups (y :: l')).
    { rewrite !digest_groups_cons, Hd, Hs, He, IH1, IH2. reflexivity. }
    split; [exact Hg|]. intros s e c. cbn [digest_scan].
    rewrite Hd, He, IH2, Hg. reflexivity.
Qed.

End DigestFacts.

(** C6.  Every maximal run of consecutive digest segments yields one group
    (start of its first member, end of its last member, number of members),
    placed between the groups of what precedes and of what follows; the pass
    does not read team labels; three digest segments of 50 seconds from
    t=1000 give the single group (1000, 1150, 3) whatever their teams. *)
Theorem digest_groups_maximal_runs (pre run post : list Segment) :
  run <> [] ->
  forallb is_digest run = true ->
  bounded_by is_digest (last_seg pre) = true ->
  bounded_by is_digest (first_seg post) = true ->
  digest_groups (pre ++ run ++ post)
  = digest_groups pre
    ++ (start_of run, end_of run, Z.of_nat (List.length run)) :: digest_groups post
  /\ (forall (f : Segment -> string) segs,
        digest_groups (map (fun r => set_team (f r) r) segs) = digest_groups segs)
  /\ (forall t1 t2 t3,
        digest_groups [digest_seg t1 1000 50; digest_seg t2 1050 50;
                       digest_seg t3 1100 50] = [(1000, 1150, 3)]).
Proof.
  intros Hne Hrun Hpre Hpost. split; [now apply digest_groups_run|]. split.
  - intros f segs. apply digest_groups_ext.
    induction segs as [|x segs IH]; simpl; constructor; auto.
  - intros. reflexivity.
Qed.

Lemma digest_groups_maximal_runs_witness :
  let pre := [mkSeg 1000 "X" "" "" false 0 1000 false] in
  let run := [digest_seg "A" 1000 50; digest_seg "B" 1050 50; digest_seg "A" 1100 50] in
  let post := [mkSeg 10 "Y" "" "" false 1150 1160 false; digest_seg "C" 1160 5] in
  digest_groups (pre ++ run ++ post) = [(1000, 1150, 3); (1160, 1165, 1)].
Proof.
  intros pre run post.
  apply (proj1 (digest_groups_maximal_runs pre run post
                  ltac:(discriminate) eq_refl eq_refl eq_refl)).
Defined.

(* ================================================================== *)
(** ** Team pass *)

Section TeamFacts.

Lemma team_loop_app st l1 l2 :
  team_loop st (l1 ++ l2) = team_loop (team_loop st l1) l2.
Proof. apply fold_left_app. Qed.





Lemma in_run_flags t r :
  in_run t r = true -> is_digest r = false /\ is_cm r = false /\ team r = t.
Proof.
  unfold in_run. intro H.
  apply andb_true_iff in H as [H Ht]. apply andb_true_iff in H as [Hd Hc].
  apply negb_true_iff in Hd, Hc. apply String.eqb_eq in Ht. auto.
Qed.











End TeamFacts.



(** C9.  The closing step after the loop appends the open run only when its
    team is a non-empty string: a run of the empty team that is still open
    at the end of the sequence is not appended, so a last segment of the
    empty team leaves the team spans as they were without it, while the same
    run followed by another segment is appended. *)
Theorem trailing_empty_team_run_dropped :
  (forall m s e, team_finish (mkMS m (Some ("", s, e))) = m)
  /\ (forall segs d dp rm s e,
        team_merge (segs ++ [mkSeg d "" dp rm false s e false]) = team_merge segs)
  /\ team_merge (process_sheet [row_of 600 "A" ""; row_of 300 "" ""] true)
     = [("A", 0, 600)]
  /\ team_merge (process_sheet [row_of 300 "" ""; row_of 600 "A" ""] true)
     = [("", 0, 300); ("A", 300, 900)].
Proof.
  split; [reflexivity|]. split; [|split; reflexivity].
  intros segs d dp rm s e. unfold team_merge. rewrite team_loop_app.
  destruct (team_loop (mkMS [] None) segs) as [m [[[t s0] e0]|]];
    cbn [team_loop fold_left]; unfold team_step;
    cbn [is_digest is_cm cur merged team start end_]; [|reflexivity].
  destruct t as [|c t]; reflexivity.
Qed.

(* ================================================================== *)
(** ** Digest rows around dropped commercial rows *)

Section DigestAcrossCommercials.







Lemma split_digest_prefix (l : list Segment) :
  exists r l', l = r ++ l' /\ forallb is_digest r = true
               /\ bounded_by is_digest (first_seg l') = true.
Proof.
  induction l as [|x l IH].
  - now exists [], [].
  - destruct (is_digest x) eqn:Hx.
    + destruct IH as (r & l' & -> & Hr & Hb).
      exists (x :: r), l'. split; [reflexivity|]. split; [|exact Hb].
      simpl. now rewrite Hx.
    + exists [], (x :: l). split; [reflexivity|]. split; [reflexivity|].
      simpl. now rewrite Hx.
Qed.

End DigestAcrossCommercials.



(* ================================================================== *)
(** ** Lane assignment: every request is placed *)

Section PlacementFacts.

Local Open Scope Q_scope.

Variables (xmin xmax base_y : Q) (direction : Z).

Lemma record_label_drawn d dir i x y rs :
  drawn (record_label d dir i x y rs) = drawn rs ++ [mkPl d dir i x y].
Proof. unfold record_label. destruct (0 <? dir)%Z; reflexivity. Qed.

Lemma try_lanes_some (lanes : list Q) : forall x0 w lim i0 j x lanes',
  try_lanes x0 w lim i0 lanes = Some (j, x, lanes') ->
  exists k endx,
    j = (i0 + k)%nat
    /\ nth_error lanes k = Some endx
    /\ x = qmax x0 (endx + min_gap)
    /\ nth_error lanes' k = Some (x + w)
    /\ List.length lanes' = List.length lanes
    /\ (forall k', k' <> k -> nth_error lanes' k' = nth_error lanes k').
Proof.
  induction lanes as [|endx lanes IH]; intros x0 w lim i0 j x lanes' H;
    [discriminate|].
  cbn [try_lanes] in H.
  destruct (Qle_bool (qmax x0 (endx + min_gap)) lim).
  - inversion H; subst. exists 0%nat, endx. rewrite Nat.add_0_r.
    repeat split; try reflexivity.
    intros [|k'] Hk; [congruence | reflexivity].
  - destruct (try_lanes x0 w lim (S i0) lanes) as [[[j1 x1] rest]|] eqn:E;
      [|discriminate].
    inversion H; subst.
    destruct (IH _ _ _ _ _ _ _ E) as (k & e & Hj & Hn & Hx & Hn' & Hl & Ho).
    exists (S k), e. repeat split; try assumption.
    + lia.
    + simpl. now rewrite Hl.
    + intros [|k'] Hk; [reflexivity|]. simpl. apply Ho. congruence.
Qed.

(** One request, one label: in a lane that exists, or in a new last lane. *)
Lemma place_one_places lanes rs d :
  exists p,
    drawn (snd (place_one xmin xmax base_y direction (lanes, rs) d)) = drawn rs ++ [p]
    /\ pl_req p = d /\ pl_dir p = direction
    /\ let lanes' := fst (place_one xmin xmax base_y direction (lanes, rs) d) in
       (((pl_lane p < List.length lanes)%nat
         /\ List.length lanes' = List.length lanes)
        \/ (pl_lane p = List.length lanes
            /\ lanes' = lanes ++ [pl_x p + width d])).
Proof.
  unfold place_one.
  destruct (try_lanes _ _ _ 0 lanes) as [[[i x] lanes']|] eqn:E.
  - eexists. cbn [snd fst]. rewrite record_label_drawn.
    split; [reflexivity|]. split; [reflexivity|]. split; [reflexivity|].
    left. cbn [pl_lane].
    destruct (try_lanes_some _ _ _ _ _ _ _ _ E) as (k & e & Hj & Hn & _ & _ & Hl & _).
    split; [|exact Hl]. simpl in Hj. subst i.
    apply nth_error_Some. congruence.
  - eexists. cbn [snd fst]. rewrite record_label_drawn.
    split; [reflexivity|]. split; [reflexivity|]. split; [reflexivity|].
    right. split; reflexivity.
Qed.

Lemma place_loop_requests (items : list Request) : forall lanes rs,
  map pl_req (drawn (snd (fold_left (place_one xmin xmax base_y direction)
                                    items (lanes, rs))))
  = map pl_req (drawn rs) ++ items.
Proof.
  induction items as [|d items IH]; intros lanes rs; cbn [fold_left].
  - cbn [snd]. now rewrite app_nil_r.
  - destruct (place_one_places lanes rs d) as (p & Hd & Hp & _).
    destruct (place_one xmin xmax base_y direction (lanes, rs) d) as [lanes1 rs1].
    rewrite IH. cbn [snd] in Hd. rewrite Hd, map_app. cbn [map].
    rewrite Hp, <- app_assoc. reflexivity.
Qed.

End PlacementFacts.

Section RowPlacementFacts.

Lemma place_band_requests xmin xmax y_base direction items rs :
  map pl_req (drawn (place_band xmin xmax y_base direction items rs))
  = map pl_req (drawn rs) ++ items.
Proof.
  destruct items as [|d items]; [simpl; now rewrite app_nil_r|].
  unfold place_band, band_loop. apply place_loop_requests.
Qed.

Lemma insert_by_anchor_perm d l : Permutation (insert_by_anchor d l) (d :: l).
Proof.
  induction l as [|h l IH]; simpl; [reflexivity|].
  destruct (Qlt_bool (anchor_x h) (anchor_x d)); [|reflexivity].
  rewrite IH. apply perm_swap.
Qed.

Lemma sorted_by_anchor_perm items : Permutation (sorted_by_anchor items) items.
Proof.
  induction items as [|d items IH]; simpl; [reflexivity|].
  rewrite insert_by_anchor_perm. now constructor.
Qed.

Lemma split_parity_perm (items : list Request) : forall i,
  Permutation (fst (split_parity i items) ++ snd (split_parity i items)) items.
Proof.
  induction items as [|d items IH]; intro i; simpl; [reflexivity|].
  specialize (IH (S i)). destruct (split_parity (S i) items) as [t b].
  destruct (Nat.even i); simpl in *.
  - now constructor.
  - rewrite <- Permutation_middle. now constructor.
Qed.

Lemma drawn_requests items y_base xmin xmax :
  Permutation (map pl_req (drawn (draw_row_outside_labels items y_base xmin xmax)))
              items.
Proof.
  unfold draw_row_outside_labels. destruct items as [|d0 items0]; [reflexivity|].
  set (items := d0 :: items0).
  pose proof (split_parity_perm (sorted_by_anchor items) 0) as Hs.
  destruct (split_parity 0 (sorted_by_anchor items)) as [t b].
  rewrite !place_band_requests. cbn [drawn map app fst snd] in *.
  rewrite Hs. apply sorted_by_anchor_perm.
Qed.

(** Crowding: requests that all want the right end of the axis. *)
Lemma crowd_no_lane (k : nat) : forall i,
  try_lanes crowd_x 100 (7200 - 100 - right_margin) i (repeat crowd_end k) = None.
Proof.
  induction k as [|k IH]; intro i; [reflexivity|].
  cbn [repeat try_lanes]. rewrite IH. reflexivity.
Qed.

Lemma crowd_loop (n : nat) : forall k rs base_y dir,
  let st := fold_left (place_one 0 7200 base_y dir) (repeat crowd_request n)
                      (repeat crowd_end k, rs) in
  fst st = repeat crowd_end (k + n)
  /\ List.length (drawn (snd st)) = (List.length (drawn rs) + n)%nat.
Proof.
  induction n as [|n IH]; intros k rs base_y dir; cbn zeta.
  - simpl. rewrite !Nat.add_0_r. split; reflexivity.
  - cbn [repeat fold_left].
    assert (E : place_one 0 7200 base_y dir (repeat crowd_end k, rs) crowd_request
                = (repeat crowd_end (S k),
                   record_label crowd_request dir k crowd_x
                                (lane_y base_y dir k) rs)).
    { unfold place_one. cbn [width pref_x crowd_request].
      change (qmax (0 + left_margin) (qmin 7200 (7200 - 100 - right_margin)))
        with crowd_x.
      rewrite crowd_no_lane, repeat_length.
      f_equal. change (crowd_x + 100)%Q with crowd_end.
      now rewrite <- repeat_cons. }
    rewrite E. destruct (IH (S k) (record_label crowd_request dir k crowd_x
                                               (lane_y base_y dir k) rs)
                            base_y dir) as [H1 H2].
    cbn zeta in H1, H2. rewrite H1, H2, record_label_drawn, length_app.
    split; [f_equal; lia | cbn [List.length]; lia].
Qed.

End RowPlacementFacts.

(** C3.  The requests of the labels drawn for a row are the queued requests,
    each exactly once; one step of the band loop draws one label, in a lane
    that exists or in a new last lane; [n] requests that all want the right
    end of the axis are all drawn, in [n] lanes. *)
Theorem every_request_placed :
  (forall items y_base xmin xmax,
      Permutation (map pl_req (drawn (draw_row_outside_labels items y_base xmin xmax)))
                  items
      /\ List.length (drawn (draw_row_outside_labels items y_base xmin xmax))
         = List.length items)
  /\ (forall xmin xmax base_y direction lanes rs d,
         exists p,
           drawn (snd (place_one xmin xmax base_y direction (lanes, rs) d))
           = drawn rs ++ [p]
           /\ pl_req p = d /\ pl_dir p = direction
           /\ let lanes' := fst (place_one xmin xmax base_y direction (lanes, rs) d) in
              (((pl_lane p < List.length lanes)%nat
                /\ List.length lanes' = List.length lanes)
               \/ (pl_lane p = List.length lanes
                   /\ lanes' = lanes ++ [(pl_x p + width d)%Q])))
  /\ (forall n y_base direction rs,
         let st := band_loop 0 7200 y_base direction (repeat crowd_request n) rs in
         List.length (fst st) = n
         /\ List.length (drawn (snd st)) = (List.length (drawn rs) + n)%nat).
Proof.
  split; [|split].
  - intros. pose proof (drawn_requests items y_base xmin xmax) as H.
    split; [exact H|].
    apply Permutation_length in H. now rewrite length_map in H.
  - intros. apply place_one_places.
  - intros n y_base direction rs. cbn zeta. unfold band_loop.
    destruct (crowd_loop n 0 rs
                (y_base + (if (0 <? direction)%Z then bar_half + gap
                           else - (bar_half + gap)))%Q direction) as [H1 H2].
    cbn zeta in H1, H2. simpl repeat in H1, H2.
    rewrite H1, H2, repeat_length. split; reflexivity.
Qed.

(* ================================================================== *)
(** ** Lane assignment: labels of one lane keep their distance *)

Section GapFacts.

Local Open Scope Q_scope.

Lemma qmax_ge_r a b : b <= qmax a b.
Proof.
  unfold qmax, Qlt_bool. destruct (Qle_bool b a) eqn:E; simpl.
  - now apply Qle_bool_iff.
  - apply Qle_refl.
Qed.

Lemma ForallOrdPairs_snoc (A : Type) (R : A -> A -> Prop) (l : list A) (x : A) :
  ForallOrdPairs R l -> Forall (fun y => R y x) l ->
  ForallOrdPairs R (l ++ [x]).
Proof.
  induction 1 as [|a l Ha Hl IH]; intro Hx; simpl.
  - repeat constructor.
  - inversion Hx; subst. constructor.
    + apply Forall_app. split; [exact Ha | repeat constructor; assumption].
    + now apply IH.
Qed.

Lemma ForallOrdPairs_pick (A : Type) (R : A -> A -> Prop) (l1 : list A) :
  forall a l2 b l3,
    ForallOrdPairs R (l1 ++ a :: l2 ++ b :: l3) -> R a b.
Proof.
  induction l1 as [|x l1 IH]; intros a l2 b l3 H; inversion H; subst.
  - rewrite Forall_forall in H2. apply H2, in_or_app. right. now left.
  - eapply IH; eassumption.
Qed.

Variables (xmin xmax base_y : Q) (direction : Z).

Lemma place_one_gaps lanes rs d :
  0 <= width d ->
  lane_covers direction lanes (drawn rs) ->
  ForallOrdPairs gap_ok (drawn rs) ->
  let st := place_one xmin xmax base_y direction (lanes, rs) d in
  lane_covers direction (fst st) (drawn (snd st))
  /\ ForallOrdPairs gap_ok (drawn (snd st)).
Proof.
  intros Hw Hcov Hgap. cbn zeta. unfold place_one.
  set (w := width d) in *.
  set (x0 := qmax (xmin + left_margin) (qmin (pref_x d) (xmax - w - right_margin))).
  unfold lane_covers in *.
  destruct (try_lanes x0 w (xmax - w - right_margin) 0 lanes)
    as [[[i x] lanes']|] eqn:E; cbn [fst snd]; rewrite record_label_drawn.
  - destruct (try_lanes_some _ _ _ _ _ _ _ _ E)
      as (k & endx & Hj & Hn & Hx & Hn' & Hl & Ho).
    simpl in Hj. subst i.
    assert (Hge : endx + min_gap <= x) by (rewrite Hx; apply qmax_ge_r).
    unfold min_gap in Hge. split.
    + apply Forall_app. split.
      * eapply Forall_impl; [|exact Hcov]. intros q Hq Hdir.
        destruct (Hq Hdir) as (e & He & Hle).
        destruct (Nat.eq_dec (pl_lane q) k) as [Hk|Hk].
        -- exists (x + w). rewrite Hk. split; [exact Hn'|].
           rewrite Hk, Hn in He. inversion He; subst e. lra.
        -- exists e. rewrite (Ho _ Hk). split; [exact He | exact Hle].
      * repeat constructor. intros _. exists (x + w). cbn [pl_lane pl_x pl_req].
        split; [exact Hn' | apply Qle_refl].
    + apply ForallOrdPairs_snoc; [exact Hgap|].
      eapply Forall_impl; [|exact Hcov]. intros q Hq Hdir Hlane.
      cbn [pl_dir pl_lane pl_x] in *.
      destruct (Hq Hdir) as (e & He & Hle).
      rewrite Hlane, Hn in He. inversion He; subst e.
      unfold min_gap. lra.
  - split.
    + apply Forall_app. split.
      * eapply Forall_impl; [|exact Hcov]. intros q Hq Hdir.
        destruct (Hq Hdir) as (e & He & Hle). exists e. split; [|exact Hle].
        rewrite nth_error_app1; [exact He|]. apply nth_error_Some. congruence.
      * repeat constructor. intros _. exists (x0 + w). cbn [pl_lane pl_x pl_req].
        split; [|apply Qle_refl].
        rewrite nth_error_app2, Nat.sub_diag by apply Nat.le_refl. reflexivity.
    + apply ForallOrdPairs_snoc; [exact Hgap|].
      eapply Forall_impl; [|exact Hcov]. intros q Hq Hdir Hlane.
      cbn [pl_dir pl_lane] in *.
      destruct (Hq Hdir) as (e & He & _).
      assert (pl_lane q < List.length lanes)%nat by (apply nth_error_Some; congruence).
      lia.
Qed.

Lemma place_loop_gaps (items : list Request) : forall lanes rs,
  Forall (fun d => 0 <= width d) items ->
  lane_covers direction lanes (drawn rs) ->
  ForallOrdPairs gap_ok (drawn rs) ->
  ForallOrdPairs gap_ok
    (drawn (snd (fold_left (place_one xmin xmax base_y direction) items (lanes, rs)))).
Proof.
  induction items as [|d items IH]; intros lanes rs Hw Hcov Hgap; [exact Hgap|].
  inversion Hw; subst. cbn [fold_left].
  destruct (place_one_gaps lanes rs d H1 Hcov Hgap) as [Hc Hg].
  destruct (place_one xmin xmax base_y direction (lanes, rs) d) as [lanes1 rs1].
  now apply IH.
Qed.

Lemma place_loop_dirs (items : list Request) (P : Placement -> Prop) :
  (forall p, pl_dir p = direction -> P p) ->
  forall lanes rs,
    Forall P (drawn rs) ->
    Forall P (drawn (snd (fold_left (place_one xmin xmax base_y direction)
                                    items (lanes, rs)))).
Proof.
  intro HP. induction items as [|d items IH]; intros lanes rs H; [exact H|].
  cbn [fold_left].
  destruct (place_one_places xmin xmax base_y direction lanes rs d)
    as (p & Hd & _ & Hdir & _).
  destruct (place_one xmin xmax base_y direction (lanes, rs) d) as [lanes1 rs1].
  apply IH. cbn [snd] in Hd. rewrite Hd. apply Forall_app. split; [exact H|].
  repeat constructor. now apply HP.
Qed.

End GapFacts.

Section RowGapFacts.

Local Open Scope Q_scope.

Lemma place_band_gaps xmin xmax y_base direction items rs :
  Forall (fun d => 0 <= width d) items ->
  Forall (fun p => pl_dir p <> direction) (drawn rs) ->
  ForallOrdPairs gap_ok (drawn rs) ->
  ForallOrdPairs gap_ok (drawn (place_band xmin xmax y_base direction items rs)).
Proof.
  intros Hw Hdir Hgap. destruct items as [|d items]; [exact Hgap|].
  unfold place_band, band_loop. apply place_loop_gaps; try assumption.
  unfold lane_covers. eapply Forall_impl; [|exact Hdir].
  intros p Hp Hd. contradiction.
Qed.

Lemma place_band_dirs xmin xmax y_base direction items rs (P : Placement -> Prop) :
  (forall p, pl_dir p = direction -> P p) ->
  Forall P (drawn rs) ->
  Forall P (drawn (place_band xmin xmax y_base direction items rs)).
Proof.
  intros HP H. destruct items as [|d items]; [exact H|].
  unfold place_band, band_loop. now apply place_loop_dirs.
Qed.

Lemma draw_row_gaps items y_base xmin xmax :
  Forall (fun d => 0 <= width d) items ->
  ForallOrdPairs gap_ok (drawn (draw_row_outside_labels items y_base xmin xmax)).
Proof.
  intro Hw. unfold draw_row_outside_labels.
  destruct items as [|d0 items0]; [constructor|].
  set (items := d0 :: items0) in *.
  pose proof (split_parity_perm (sorted_by_anchor items) 0) as Hs.
  destruct (split_parity 0 (sorted_by_anchor items)) as [t b].
  cbn [fst snd] in Hs.
  assert (Hall : Forall (fun d => 0 <= width d) (t ++ b)).
  { rewrite Forall_forall in *. intros d Hd. apply Hw.
    eapply Permutation_in; [apply sorted_by_anchor_perm|].
    eapply Permutation_in; [exact Hs | exact Hd]. }
  apply Forall_app in Hall as [Ht Hb].
  apply place_band_gaps; [exact Hb | |].
  - apply place_band_dirs; [|constructor]. intros p Hp. rewrite Hp. discriminate.
  - apply place_band_gaps; [exact Ht | constructor | constructor].
Qed.

Lemma sec_per_px_nonneg : 0 <= sec_per_px.
Proof. vm_compute. discriminate. Qed.

Lemma need_sec_lower tw l : 0 <= tw l -> 6 <= need_sec tw l.
Proof.
  intro H. unfold need_sec.
  pose proof (Qmult_le_0_compat _ _ H sec_per_px_nonneg) as Hm.
  set (m := tw l * sec_per_px) in *. lra.
Qed.

Lemma Qlt_bool_iff a b : Qlt_bool a b = true <-> a < b.
Proof.
  unfold Qlt_bool. rewrite negb_true_iff. split.
  - intro H. apply Qnot_le_lt. intro Hle. apply Qle_bool_iff in Hle. congruence.
  - intro H. destruct (Qle_bool b a) eqn:E; [|reflexivity].
    apply Qle_bool_iff in E. exfalso. exact (Qlt_not_le _ _ H E).
Qed.

Lemma decide_label_width tw l s e it :
  (forall x, 0 <= tw x) ->
  Forall (fun d => 0 <= width d) (queued_of (decide_label tw l s e it)).
Proof.
  intro Htw. unfold decide_label.
  destruct (Qlt_bool (need_sec tw l) (inject_Z (e - s))); simpl; [constructor|].
  repeat constructor. simpl. pose proof (need_sec_lower tw l (Htw l)). lra.
Qed.

Lemma row_outside_widths tw segs :
  (forall x, 0 <= tw x) ->
  Forall (fun d => 0 <= width d) (row_outside tw segs).
Proof.
  intro Htw. unfold row_outside. apply Forall_app. split.
  - generalize (team_merge segs) as l.
    induction l as [|[[t s] e] l IH]; simpl; [constructor|].
    apply Forall_app. split; [|exact IH].
    destruct (is_blank t); [constructor | now apply decide_label_width].
  - generalize (digest_groups segs) as l.
    induction l as [|[[s e] n] l IH]; simpl; [constructor|].
    apply Forall_app. split; [|exact IH]. now apply decide_label_width.
Qed.

Lemma five_px_per_byte_nonneg l : 0 <= five_px_per_byte l.
Proof.
  unfold five_px_per_byte. apply Qmult_le_0_compat; [|discriminate].
  change 0 with (inject_Z 0). rewrite <- Zle_Qle. lia.
Qed.

End RowGapFacts.

(** C4.  Among the labels drawn for a row, whenever [p1] is drawn before
    [p2] in the same lane of the same band, the right edge of [p1] plus the
    minimum gap of 10 is at most the left edge of [p2].  Rendered text
    widths are taken to be non-negative. *)
Theorem same_lane_labels_apart (tw : string -> Q) (segs : list Segment) (y0 : Q)
        (l1 l2 l3 : list Placement) (p1 p2 : Placement) :
  (forall l, 0 <= tw l)%Q ->
  drawn (row_layout tw segs y0) = l1 ++ p1 :: l2 ++ p2 :: l3 ->
  pl_dir p1 = pl_dir p2 -> pl_lane p1 = pl_lane p2 ->
  (pl_x p1 + width (pl_req p1) + min_gap <= pl_x p2)%Q.
Proof.
  intros Htw Hd Hdir Hlane.
  pose proof (draw_row_gaps (row_outside tw segs) y0 0%Q 7200%Q
                (row_outside_widths tw segs Htw)) as H.
  fold (row_layout tw segs y0) in H. rewrite Hd in H.
  exact (ForallOrdPairs_pick _ _ _ _ _ _ _ H Hdir Hlane).
Qed.

Lemma same_lane_labels_apart_witness :
  exists p1 p2 rest,
    drawn (row_layout five_px_per_byte (process_sheet sheet_narrow true) 0)
    = p1 :: p2 :: rest
    /\ label (pl_req p1) = "BB" /\ label (pl_req p2) = "DD"
    /\ (pl_x p1 + width (pl_req p1) + min_gap <= pl_x p2)%Q.
Proof.
  eexists. eexists. eexists. split; [vm_compute; reflexivity|].
  split; [reflexivity|]. split; [reflexivity|].
  eapply (same_lane_labels_apart five_px_per_byte (process_sheet sheet_narrow true) 0
            [] [] _ _ _ five_px_per_byte_nonneg);
    [vm_compute; reflexivity | reflexivity | reflexivity].
Defined.

(* ================================================================== *)
(** ** The fits-inside test *)

Section FitsInsideFacts.

Local Open Scope Q_scope.

Lemma decide_label_inside tw l s e it :
  need_sec tw l < inject_Z (e - s) ->
  decide_label tw l s e it = Inside l (inject_Z (s + e) / 2) it.
Proof.
  intro H. unfold decide_label. apply Qlt_bool_iff in H. now rewrite H.
Qed.

Lemma decide_label_queued tw l s e it :
  ~ need_sec tw l < inject_Z (e - s) ->
  decide_label tw l s e it
  = Queued (mkReq l (inject_Z (s + e) / 2) (inject_Z e + 6) (need_sec tw l) it).
Proof.
  intro H. unfold decide_label.
  destruct (Qlt_bool (need_sec tw l) (inject_Z (e - s))) eqn:E; [|reflexivity].
  apply Qlt_bool_iff in E. contradiction.
Qed.

Lemma short_span_not_wider tw l s e :
  0 <= tw l -> (e - s <= 6)%Z -> ~ need_sec tw l < inject_Z (e - s).
Proof.
  intros Htw Hlen Hlt. pose proof (need_sec_lower tw l Htw) as Hn.
  assert (inject_Z (e - s) <= 6) by (change 6 with (inject_Z 6); now rewrite <- Zle_Qle).
  lra.
Qed.

End FitsInsideFacts.

(** C8, as stated, fails on a span whose team label is blank: a span of 5
    seconds labelled with 20 spaces is not wider than its label needs, and is
    neither drawn inside the bar nor queued. *)
Lemma blank_span_neither_inside_nor_queued :
  ~ (forall (tw : string -> Q) (t : string) (s e : Z),
        (forall l, 0 <= tw l)%Q ->
        ((exists xc it, decide_team tw (t, s, e) = Inside t xc it)
         <-> (need_sec tw t < inject_Z (e - s))%Q)
        /\ (~ (need_sec tw t < inject_Z (e - s))%Q ->
            exists r, decide_team tw (t, s, e) = Queued r)).
Proof.
  intro H.
  destruct (H (fun _ => 0%Q) "                    " 0 5 (fun _ => Qle_refl 0))
    as [_ Hq].
  destruct Hq as [r Hr].
  - intro Hlt. vm_compute in Hlt. discriminate.
  - vm_compute in Hr. discriminate.
Qed.

(** C8, amended.  A team span whose label is not blank, and every digest
    group, has its label drawn centred inside the bar when its duration is
    strictly greater than [need_sec] of the label, and queued as an outside
    request otherwise; a span of at most 6 seconds (so one of 5 seconds,
    whatever the length of its label) is queued; a team span with a blank
    label is skipped. *)
Theorem label_inside_iff_wider (tw : string -> Q) (t : string) (s e : Z) :
  is_blank t = false ->
  ((need_sec tw t < inject_Z (e - s))%Q ->
   decide_team tw (t, s, e) = Inside t (inject_Z (s + e) / 2)%Q false)
  /\ (~ (need_sec tw t < inject_Z (e - s))%Q ->
      decide_team tw (t, s, e)
      = Queued (mkReq t (inject_Z (s + e) / 2)%Q (inject_Z e + 6)%Q
                      (need_sec tw t) false))
  /\ ((0 <= tw t)%Q -> e - s <= 6 ->
      exists r, decide_team tw (t, s, e) = Queued r)
  /\ (forall n,
         ((need_sec tw (digest_label n) < inject_Z (e - s))%Q ->
          decide_digest tw (s, e, n)
          = Inside (digest_label n) (inject_Z (s + e) / 2)%Q true)
         /\ (~ (need_sec tw (digest_label n) < inject_Z (e - s))%Q ->
             decide_digest tw (s, e, n)
             = Queued (mkReq (digest_label n) (inject_Z (s + e) / 2)%Q
                             (inject_Z e + 6)%Q (need_sec tw (digest_label n)) true)))
  /\ (forall b, is_blank b = true -> decide_team tw (b, s, e) = Skipped).
Proof.
  intro Hb. unfold decide_team, decide_digest. rewrite Hb.
  split; [apply decide_label_inside|].
  split; [apply decide_label_queued|].
  split.
  - intros Htw Hlen. eexists. apply decide_label_queued.
    now apply short_span_not_wider.
  - split.
    + intro n. split; [apply decide_label_inside | apply decide_label_queued].
    + intros b ->. reflexivity.
Qed.

Lemma label_inside_iff_wider_witness :
  String.length "ABCDEFGHIJKLMNOPQRST" = 20%nat
  /\ exists r, decide_team five_px_per_byte ("ABCDEFGHIJKLMNOPQRST", 100, 105)
               = Queued r.
Proof.
  split; [reflexivity|].
  apply (label_inside_iff_wider five_px_per_byte "ABCDEFGHIJKLMNOPQRST" 100 105
           eq_refl);
    [apply five_px_per_byte_nonneg | vm_compute; discriminate].
Defined.

(* ================================================================== *)
(** ** Further properties of the row builder *)

Section RowBuilderMore.





Lemma offsets_from_fields (rows : list CleanRow) : forall acc,
  map seg_fields (offsets_from acc rows)
  = map (fun c => (c_dur c, c_team c, c_dept c, c_remark c)) rows.
Proof.
  induction rows as [|c rows IH]; intro acc; simpl; [reflexivity|].
  now rewrite IH.
Qed.

Lemma clean_some r c :
  clean r = Some c ->
  raw_valid r = true
  /\ (c_dur c, c_team c, c_dept c, c_remark c) = raw_fields r.
Proof.
  unfold clean, raw_valid, raw_fields. destruct (raw_dur r) as [d|]; [|discriminate].
  destruct (0 <? d); [|discriminate]. intro H; inversion H; subst. auto.
Qed.

Lemma clean_none r : clean r = None -> raw_valid r = false.
Proof.
  unfold clean, raw_valid. destruct (raw_dur r) as [d|]; [|reflexivity].
  destruct (0 <? d); [discriminate | reflexivity].
Qed.

Lemma kept_rows_fields inc raw :
  map (fun c => (c_dur c, c_team c, c_dept c, c_remark c)) (kept_rows inc raw)
  = map raw_fields (filter (raw_kept inc) raw).
Proof.
  unfold kept_rows, raw_kept. induction raw as [|r raw IH]; [now destruct inc|].
  cbn [clean_rows filter]. destruct (clean r) as [c|] eqn:E.
  - destruct (clean_some _ _ E) as [Hv Hf]. rewrite Hv. cbn [andb].
    destruct inc; cbn [orb].
    + cbn [map]. now rewrite IH, Hf.
    + cbn [filter]. rewrite (clean_mask_cm _ _ E).
      destruct (raw_mask_cm r); cbn [negb]; [exact IH|].
      cbn [map]. now rewrite IH, Hf.
  - rewrite (clean_none _ E). cbn [andb]. exact IH.
Qed.




End RowBuilderMore.


(** X2.  The segments of a processed sheet are, in the order of the sheet,
    the rows whose duration is a positive number (and, without [include_cm],
    that hold no commercial marker), with the duration of the row and its
    three text cells, blank cells read as empty strings.  So a sheet without
    such a row gives no segment. *)
Theorem segments_are_surviving_rows (raw : list RawRow) (inc : bool) :
  map seg_fields (process_sheet raw inc)
  = map raw_fields (filter (raw_kept inc) raw)
  /\ (List.length (process_sheet raw inc) <= List.length raw)%nat
  /\ (forallb (fun r => negb (raw_kept inc r)) raw = true ->
      process_sheet raw inc = []).
Proof.
  assert (H : map seg_fields (process_sheet raw inc)
              = map raw_fields (filter (raw_kept inc) raw)).
  { rewrite process_sheet_offsets, offsets_from_fields. apply kept_rows_fields. }
  split; [exact H|]. split.
  - apply (f_equal (@List.length _)) in H. rewrite !length_map in H. rewrite H.
    apply filter_length_le.
  - intro Hall. apply (f_equal (@List.length _)) in H. rewrite !length_map in H.
    assert (E : filter (raw_kept inc) raw = []).
    { clear H. induction raw as [|r raw IH]; [reflexivity|].
      simpl in Hall. apply andb_true_iff in Hall as [Hr Hall].
      apply negb_true_iff in Hr. simpl. rewrite Hr. now apply IH. }
    rewrite E in H. now apply length_zero_iff_nil.
Qed.

Lemma segments_are_surviving_rows_witness :
  process_sheet [mkRaw None (Some "A") None None; row_of 0 "B" "";
                 row_of (-5) "C" ""; row_of 30 "D" "CM"] false = [].
Proof.
  apply (proj2 (proj2 (segments_are_surviving_rows
           [mkRaw None (Some "A") None None; row_of 0 "B" "";
            row_of (-5) "C" ""; row_of 30 "D" "CM"] false))).
  reflexivity.
Defined.


(* ================================================================== *)
(** ** Bars *)

Section BarFacts.




End BarFacts.


(* ================================================================== *)
(** ** Team spans of a processed sheet: order and contact *)

Section TeamOrderFacts.








End TeamOrderFacts.




(* ================================================================== *)
(** ** Every team span is a block of segments *)

Section TeamRunFacts.

Lemma last_seg_app_run pre run : run <> [] -> last_seg (pre ++ run) = last_seg run.
Proof.
  intro H. destruct (exists_last H) as (run' & x & ->).
  rewrite app_assoc, !last_seg_app. reflexivity.
Qed.

Lemma first_seg_app post r : post <> [] -> first_seg (post ++ [r]) = first_seg post.
Proof. destruct post; [congruence | reflexivity]. Qed.

Lemma start_of_snoc run r : run <> [] -> start_of (run ++ [r]) = start_of run.
Proof. destruct run; [congruence | reflexivity]. Qed.

Lemma end_of_snoc run r : end_of (run ++ [r]) = end_ r.
Proof. unfold end_of. now rewrite last_seg_app. Qed.

Lemma closed_runs_more P m r : closed_runs P m -> closed_runs (P ++ [r]) m.
Proof.
  unfold closed_runs. intro H. eapply Forall_impl; [|exact H].
  intros sp (pre & run & post & -> & Hpost & Hne & Hall & Hl & Hf & Esp).
  exists pre, run, (post ++ [r]). split; [now rewrite <- !app_assoc|].
  split; [now destruct post|].
  unfold run_span. rewrite first_seg_app by exact Hpost. auto.
Qed.

Lemma close_open_run P sp r :
  open_run P (Some sp) -> in_run (span_team sp) r = false ->
  exists pre run post,
    P ++ [r] = pre ++ run ++ post /\ post <> [] /\ run_span pre run post sp.
Proof.
  intros (pre & run & -> & Hne & Hall & Hl & _ & Esp) Hr.
  exists pre, run, [r]. split; [now rewrite <- app_assoc|].
  split; [discriminate|]. unfold run_span. cbn [first_seg bounded_by].
  rewrite Hr. auto.
Qed.

Lemma new_run_after P r :
  is_digest r = false -> is_cm r = false ->
  bounded_by (in_run (team r)) (last_seg P) = true ->
  open_run (P ++ [r]) (Some (team r, start r, end_ r)).
Proof.
  intros Hd Hc Hb. exists P, [r]. split; [reflexivity|].
  unfold run_span, span_team, in_run. cbn [fst forallb].
  rewrite Hd, Hc, String.eqb_refl. cbn [negb andb bounded_by first_seg].
  repeat split; try assumption. discriminate.
Qed.

Lemma runs_step P st r :
  closed_runs P (merged st) -> open_run P (cur st) ->
  closed_runs (P ++ [r]) (merged (team_step st r))
  /\ open_run (P ++ [r]) (cur (team_step st r)).
Proof.
  intros Hm Hc.
  assert (Hbreak : is_digest r || is_cm r = true ->
                   closed_runs (P ++ [r]) (close_run st)
                   /\ open_run (P ++ [r]) None).
  { intro Hb. split.
    - unfold close_run. destruct (cur st) as [sp|] eqn:Ec.
      + apply Forall_app. split; [now apply closed_runs_more|].
        constructor; [|constructor]. apply close_open_run; [exact Hc|].
        unfold in_run. destruct (is_digest r); [reflexivity|].
        simpl in Hb. now rewrite Hb.
      + now apply closed_runs_more.
    - intro t. rewrite last_seg_app. unfold bounded_by, in_run.
      destruct (is_digest r); [reflexivity|]. simpl in Hb. now rewrite Hb. }
  unfold team_step.
  destruct (is_digest r) eqn:Hd; [now apply Hbreak|].
  destruct (is_cm r) eqn:Hcm; [now apply Hbreak|]. clear Hbreak.
  destruct (cur st) as [[[t s] e]|] eqn:Ec.
  - destruct (String.eqb_spec (team r) t) as [Et|Et]; cbn [merged cur].
    + split; [now apply closed_runs_more|].
      destruct Hc as (pre & run & -> & Hne & Hall & Hl & _ & Esp).
      unfold span_team in *. cbn [fst] in *. inversion Esp; subst s e.
      exists pre, (run ++ [r]). split; [now rewrite <- app_assoc|].
      unfold run_span, span_team. cbn [fst].
      rewrite forallb_app, Hall, start_of_snoc, end_of_snoc by exact Hne.
      unfold in_run at 1. cbn [forallb]. rewrite Hd, Hcm, Et, String.eqb_refl.
      repeat split; try assumption. now destruct run.
    + split.
      * apply Forall_app. split; [now apply closed_runs_more|].
        constructor; [|constructor]. apply close_open_run; [exact Hc|].
        unfold in_run, span_team. cbn [fst]. rewrite Hd, Hcm. cbn [negb andb].
        now apply String.eqb_neq.
      * apply new_run_after; [exact Hd | exact Hcm|].
        destruct Hc as (pre & run & -> & Hne & Hall & _).
        rewrite last_seg_app_run by exact Hne.
        destruct (exists_last Hne) as (run' & x & ->).
        rewrite last_seg_app. cbn [bounded_by].
        rewrite forallb_app in Hall. apply andb_true_iff in Hall as [_ Hx].
        cbn [forallb] in Hx. rewrite andb_true_r in Hx.
        destruct (in_run_flags _ _ Hx) as (_ & _ & Htx).
        unfold span_team in Htx. cbn [fst] in Htx.
        unfold in_run. rewrite Htx.
        destruct (String.eqb_spec t (team r)) as [E|E]; [congruence|].
        now rewrite andb_false_r.
  - cbn [merged cur]. split; [now apply closed_runs_more|].
    apply new_run_after; [exact Hd | exact Hcm | apply Hc].
Qed.

Lemma runs_loop (segs : list Segment) :
  closed_runs segs (merged (team_loop (mkMS [] None) segs))
  /\ open_run segs (cur (team_loop (mkMS [] None) segs)).
Proof.
  induction segs as [|r segs IH] using rev_ind.
  - split; [constructor | intro t; reflexivity].
  - rewrite team_loop_app. cbn [team_loop fold_left].
    destruct IH as [Hm Hc]. now apply runs_step.
Qed.

End TeamRunFacts.

Lemma team_merge_blocks (segs : list Segment) :
  Forall (fun sp => exists pre run post,
              segs = pre ++ run ++ post
              /\ run <> []
              /\ forallb (in_run (span_team sp)) run = true
              /\ bounded_by (in_run (span_team sp)) (last_seg pre) = true
              /\ bounded_by (in_run (span_team sp)) (first_seg post) = true
              /\ sp = (span_team sp, start_of run, end_of run))
         (team_merge segs).
Proof.
  destruct (runs_loop segs) as [Hm Hc]. unfold team_merge, team_finish.
  assert (Hclosed : Forall (fun sp => exists pre run post,
                       segs = pre ++ run ++ post /\ run_span pre run post sp)
                      (merged (team_loop (mkMS [] None) segs))).
  { eapply Forall_impl; [|exact Hm].
    intros sp (pre & run & post & E & _ & H). now exists pre, run, post. }
  destruct (cur (team_loop (mkMS [] None) segs)) as [[[t s] e]|]; [|exact Hclosed].
  destruct (truthy t); [|exact Hclosed].
  apply Forall_app. split; [exact Hclosed|]. constructor; [|constructor].
  destruct Hc as (pre & run & E & H). exists pre, run, [].
  split; [now rewrite app_nil_r | exact H].
Qed.

(** X7.  Every team span is the span of a block of consecutive segments
    that all carry its team and are neither digest nor commercial, from the
    start of the first to the end of the last, and the block cannot be
    extended: the segment before it and the segment after it, if any, is a
    digest or commercial segment or carries another team. *)
Theorem team_spans_are_runs (segs : list Segment) :
  Forall (fun sp => exists pre run post,
              segs = pre ++ run ++ post
              /\ run <> []
              /\ forallb (in_run (span_team sp)) run = true
              /\ bounded_by (in_run (span_team sp)) (last_seg pre) = true
              /\ bounded_by (in_run (span_team sp)) (first_seg post) = true
              /\ sp = (span_team sp, start_of run, end_of run))
         (team_merge segs).
Proof. exact (team_merge_blocks segs). Qed.

(* ================================================================== *)
(** ** Digest groups: counts and order *)

Section DigestMore.

Lemma digest_counts (l : list Segment) :
  sum_counts (digest_groups l) = Z.of_nat (List.length (filter is_digest l))
  /\ (forall s e c,
         sum_counts (digest_scan s e c l)
         = c + Z.of_nat (List.length (filter is_digest l))).
Proof.
  induction l as [|r l [IHg IHs]].
  - split; [reflexivity|]. intros. unfold sum_counts. simpl. lia.
  - assert (Hg : sum_counts (digest_groups (r :: l))
                 = Z.of_nat (List.length (filter is_digest (r :: l)))).
    { rewrite digest_groups_cons. cbn [filter].
      destruct (is_digest r); [|exact IHg].
      rewrite IHs. cbn [List.length]. lia. }
    split; [exact Hg|]. intros s e c. cbn [digest_scan filter].
    destruct (is_digest r) eqn:Hr.
    + rewrite IHs. cbn [List.length]. lia.
    + change (sum_counts ((s, e, c) :: digest_groups (r :: l)))
        with (c + sum_counts (digest_groups (r :: l))).
      rewrite Hg. cbn [filter]. now rewrite Hr.
Qed.


End DigestMore.

(** X8.  The counts of the digest groups add up to the number of digest
    segments, so every digest segment is counted in exactly one group; in
    particular there is no group when no segment is a digest segment. *)
Theorem digest_counts_total (segs : list Segment) :
  sum_counts (digest_groups segs)
  = Z.of_nat (List.length (filter is_digest segs))
  /\ Forall (fun g => 1 <= grp_count g) (digest_groups segs)
  /\ (digest_groups segs = [] <-> filter is_digest segs = []).
Proof.
  destruct (digest_counts segs) as [Hg _].
  assert (Hpos : forall l,
             Forall (fun g => 1 <= grp_count g) (digest_groups l)
             /\ forall s e c, 1 <= c ->
                  Forall (fun g => 1 <= grp_count g) (digest_scan s e c l)).
  { induction l as [|r l [IH1 IH2]].
    - split; [constructor|]. intros. now repeat constructor.
    - assert (H1 : Forall (fun g => 1 <= grp_count g) (digest_groups (r :: l))).
      { rewrite digest_groups_cons. destruct (is_digest r); [apply IH2; lia | exact IH1]. }
      split; [exact H1|]. intros s e c Hc. cbn [digest_scan].
      destruct (is_digest r); [apply IH2; lia|]. now constructor. }
  split; [exact Hg|]. split; [apply Hpos|]. split.
  - intro E. rewrite E in Hg. apply length_zero_iff_nil.
    unfold sum_counts in Hg. simpl in Hg. lia.
  - intro E. rewrite E in Hg. simpl in Hg.
    destruct (digest_groups segs) as [|g gs] eqn:Eg; [reflexivity|].
    destruct (Hpos segs) as [Hp _]. rewrite Eg in Hp. inversion Hp; subst.
    assert (0 <= sum_counts gs).
    { clear -H2. induction H2; unfold sum_counts in *; simpl in *; lia. }
    change (sum_counts (g :: gs)) with (grp_count g + sum_counts gs) in Hg. lia.
Qed.


(* ================================================================== *)
(** ** Where the outside labels are put *)

Section PlacementGeometry.

Local Open Scope Q_scope.

Lemma qmax_ge_l a b : a <= qmax a b.
Proof.
  unfold qmax. destruct (Qlt_bool a b) eqn:E; [|apply Qle_refl].
  apply Qlt_bool_iff in E. now apply Qlt_le_weak.
Qed.

Lemma qmax_cases a b : qmax a b = a \/ qmax a b = b.
Proof. unfold qmax. destruct (Qlt_bool a b); auto. Qed.

Lemma qmin_le_l a b : qmin a b <= a.
Proof.
  unfold qmin. destruct (Qlt_bool b a) eqn:E; [|apply Qle_refl].
  apply Qlt_bool_iff in E. now apply Qlt_le_weak.
Qed.

Lemma qmin_le_r a b : qmin a b <= b.
Proof.
  unfold qmin, Qlt_bool. destruct (Qle_bool a b) eqn:E; simpl.
  - now apply Qle_bool_iff.
  - apply Qle_refl.
Qed.

Lemma try_lanes_fits (lanes : list Q) : forall x0 w lim i0 j x lanes',
  try_lanes x0 w lim i0 lanes = Some (j, x, lanes') -> x <= lim.
Proof.
  induction lanes as [|endx lanes IH]; intros x0 w lim i0 j x lanes' H;
    [discriminate|].
  cbn [try_lanes] in H.
  destruct (Qle_bool (qmax x0 (endx + min_gap)) lim) eqn:E.
  - inversion H; subst. now apply Qle_bool_iff.
  - destruct (try_lanes x0 w lim (S i0) lanes) as [[[j1 x1] rest]|] eqn:E1;
      [|discriminate].
    inversion H; subst. eapply IH; eassumption.
Qed.

Lemma place_one_chosen xmin xmax base_y direction lanes rs d :
  place_one xmin xmax base_y direction (lanes, rs) d
  = let '(i, x, lanes') := chosen xmin xmax lanes d in
    (lanes', record_label d direction i x (lane_y base_y direction i) rs).
Proof.
  unfold place_one, chosen.
  destruct (try_lanes _ _ _ 0 lanes) as [[[i x] l]|]; reflexivity.
Qed.

Lemma chosen_facts xmin xmax lanes d :
  let '(i, x, lanes') := chosen xmin xmax lanes d in
  (i < List.length lanes')%nat
  /\ (List.length lanes <= List.length lanes')%nat
  /\ (List.length lanes' <= S (List.length lanes))%nat
  /\ xmin + left_margin <= x
  /\ (xmin + left_margin <= xmax - width d - right_margin ->
      x + width d <= xmax - right_margin).
Proof.
  unfold chosen.
  set (w := width d).
  set (lim := xmax - w - right_margin).
  set (x0 := qmax (xmin + left_margin) (qmin (pref_x d) lim)).
  assert (Hx0 : xmin + left_margin <= x0) by apply qmax_ge_l.
  destruct (try_lanes x0 w lim 0 lanes) as [[[i x] lanes']|] eqn:E.
  - destruct (try_lanes_some _ _ _ _ _ _ _ _ E) as (k & e & Hj & Hn & Hx & Hn' & Hl & _).
    pose proof (try_lanes_fits _ _ _ _ _ _ _ _ E) as Hfit.
    simpl in Hj. subst i.
    assert (k < List.length lanes)%nat by (apply nth_error_Some; congruence).
    assert (x0 <= x) by (rewrite Hx; apply qmax_ge_l).
    repeat split; try lia.
    + lra.
    + intros _. unfold lim in Hfit. lra.
  - rewrite length_app. cbn [List.length]. repeat split; try lia.
    + exact Hx0.
    + intro Hroom. fold lim in Hroom.
      assert (x0 <= lim).
      { unfold x0. destruct (qmax_cases (xmin + left_margin) (qmin (pref_x d) lim))
          as [-> | ->]; [exact Hroom | apply qmin_le_r]. }
      unfold lim in *. lra.
Qed.

Lemma place_loop_invariant xmin xmax base_y direction
      (Inv : list Q -> RowState -> Prop) (items : list Request) :
  (forall lanes rs d,
      In d items -> Inv lanes rs ->
      Inv (fst (place_one xmin xmax base_y direction (lanes, rs) d))
          (snd (place_one xmin xmax base_y direction (lanes, rs) d))) ->
  forall lanes rs,
    Inv lanes rs ->
    Inv (fst (fold_left (place_one xmin xmax base_y direction) items (lanes, rs)))
        (snd (fold_left (place_one xmin xmax base_y direction) items (lanes, rs))).
Proof.
  induction items as [|d items IH]; intros Hstep lanes rs H; [exact H|].
  cbn [fold_left].
  pose proof (Hstep lanes rs d (or_introl eq_refl) H) as H1.
  destruct (place_one xmin xmax base_y direction (lanes, rs) d) as [lanes1 rs1].
  apply IH; [|exact H1]. intros l r d' Hd'. apply Hstep. now right.
Qed.

(** A property of every label, kept by both bands. *)
Lemma draw_row_each (P : Placement -> Prop) items y_base xmin xmax :
  (forall direction lanes d,
      direction = 1%Z \/ direction = (-1)%Z ->
      let '(i, x, _) := chosen xmin xmax lanes d in
      P (mkPl d direction i x (lane_y (band_base y_base direction) direction i))) ->
  Forall P (drawn (draw_row_outside_labels items y_base xmin xmax)).
Proof.
  intro HP.
  assert (Hband : forall direction band rs,
             direction = 1%Z \/ direction = (-1)%Z ->
             Forall P (drawn rs) ->
             Forall P (drawn (place_band xmin xmax y_base direction band rs))).
  { intros direction band rs Hdir Hrs. destruct band as [|d0 band]; [exact Hrs|].
    unfold place_band, band_loop. fold (band_base y_base direction).
    apply (place_loop_invariant _ _ _ _ (fun _ r => Forall P (drawn r)));
      [|exact Hrs].
    intros lanes r d _ Hr. rewrite place_one_chosen.
    specialize (HP direction lanes d Hdir).
    destruct (chosen xmin xmax lanes d) as [[i x] lanes']. cbn [snd].
    rewrite record_label_drawn. apply Forall_app. split; [exact Hr|].
    constructor; [exact HP | constructor]. }
  unfold draw_row_outside_labels. destruct items as [|d0 items0]; [constructor|].
  destruct (split_parity 0 (sorted_by_anchor (d0 :: items0))) as [t b].
  apply Hband; [now right|]. apply Hband; [now left | constructor].
Qed.

Lemma lane_y_formula y_base direction i :
  (direction = 1%Z ->
   lane_y (band_base y_base direction) direction i
   == y_base + (47 # 100) + (22 # 100) * inject_Z (Z.of_nat i))
  /\ (direction = (-1)%Z ->
      lane_y (band_base y_base direction) direction i
      == y_base - (47 # 100) - (22 # 100) * inject_Z (Z.of_nat i)).
Proof.
  split; intros ->; unfold lane_y, band_base, bar_half, gap, lane_spacing;
    cbn [Z.ltb Z.compare]; ring.
Qed.

Lemma record_label_extents y_base d direction i x y rs :
  extents_ok y_base rs ->
  (if (0 <? direction)%Z then y_base + bar_half <= y else y <= y_base - bar_half) ->
  extents_ok y_base (record_label d direction i x y rs).
Proof.
  unfold extents_ok, record_label, bar_half. intros (Hb & Ht & Hall) Hy.
  destruct (0 <? direction)%Z; cbn [top_max_y bottom_min_y drawn].
  - pose proof (qmax_ge_l (top_max_y rs) y). pose proof (qmax_ge_r (top_max_y rs) y).
    split; [exact Hb|]. split; [lra|]. apply Forall_app. split.
    + eapply Forall_impl; [|exact Hall]. intros p [H1 H2]. split; [exact H1 | lra].
    + constructor; [|constructor]. cbn [pl_y]. split; [lra | assumption].
  - pose proof (qmin_le_l (bottom_min_y rs) y). pose proof (qmin_le_r (bottom_min_y rs) y).
    split; [lra|]. split; [exact Ht|]. apply Forall_app. split.
    + eapply Forall_impl; [|exact Hall]. intros p [H1 H2]. split; [lra | exact H2].
    + constructor; [|constructor]. cbn [pl_y]. split; [assumption | lra].
Qed.

Lemma draw_row_extents items y_base xmin xmax :
  extents_ok y_base (draw_row_outside_labels items y_base xmin xmax).
Proof.
  assert (Hnn : forall i, 0 <= (22 # 100) * inject_Z (Z.of_nat i)).
  { intro i. apply Qmult_le_0_compat; [discriminate|].
    change 0 with (inject_Z 0). rewrite <- Zle_Qle. lia. }
  assert (Hband : forall direction band rs,
             direction = 1%Z \/ direction = (-1)%Z ->
             extents_ok y_base rs ->
             extents_ok y_base (place_band xmin xmax y_base direction band rs)).
  { intros direction band rs Hdir Hrs. destruct band as [|d0 band]; [exact Hrs|].
    unfold place_band, band_loop. fold (band_base y_base direction).
    apply (place_loop_invariant _ _ _ _ (fun _ r => extents_ok y_base r));
      [|exact Hrs].
    intros lanes r d _ Hr. rewrite place_one_chosen.
    destruct (chosen xmin xmax lanes d) as [[i x] lanes']. cbn [snd].
    apply record_label_extents; [exact Hr|].
    destruct (lane_y_formula y_base direction i) as [F1 F2].
    specialize (Hnn i). unfold bar_half.
    destruct Hdir as [Hd | Hd]; rewrite Hd in *; cbn [Z.ltb Z.compare].
    - rewrite (F1 eq_refl). lra.
    - rewrite (F2 eq_refl). lra. }
  unfold draw_row_outside_labels.
  assert (H0 : extents_ok y_base (mkRS (y_base + bar_half) (y_base - bar_half) [])).
  { unfold extents_ok. cbn [top_max_y bottom_min_y drawn].
    split; [apply Qle_refl|]. split; [apply Qle_refl | constructor]. }
  destruct items as [|d0 items0]; [exact H0|].
  destruct (split_parity 0 (sorted_by_anchor (d0 :: items0))) as [t b].
  apply Hband; [now right|]. apply Hband; [now left | exact H0].
Qed.

End PlacementGeometry.

(** X10.  Every outside label of a row begins at or right of the left
    margin ([xmin + 8]); and when the axis has room for the label between
    the two margins, the label also ends at or left of the right margin
    ([xmax - 12]), in an old lane as in a new one. *)
Theorem labels_within_margins (items : list Request) (y_base xmin xmax : Q) :
  Forall (fun p =>
            (xmin + left_margin <= pl_x p)%Q
            /\ ((xmin + left_margin <= xmax - width (pl_req p) - right_margin)%Q ->
                (pl_x p + width (pl_req p) <= xmax - right_margin)%Q))
         (drawn (draw_row_outside_labels items y_base xmin xmax)).
Proof.
  apply draw_row_each. intros direction lanes d _.
  pose proof (chosen_facts xmin xmax lanes d) as H.
  destruct (chosen xmin xmax lanes d) as [[i x] lanes'].
  cbn [pl_x pl_req]. tauto.
Qed.

(** X11.  The vertical extents returned for a row enclose the bar
    ([y_base - 0.35] to [y_base + 0.35]) and the height of every outside
    label; a label of the top band in lane [i] sits at
    [y_base + 0.47 + 0.22 i], one of the bottom band at
    [y_base - 0.47 - 0.22 i]. *)
Theorem row_extents_enclose_labels (items : list Request) (y_base xmin xmax : Q) :
  let rs := draw_row_outside_labels items y_base xmin xmax in
  (bottom_min_y rs <= y_base - bar_half)%Q
  /\ (y_base + bar_half <= top_max_y rs)%Q
  /\ Forall (fun p => (bottom_min_y rs <= pl_y p)%Q /\ (pl_y p <= top_max_y rs)%Q)
            (drawn rs)
  /\ Forall (fun p =>
               (pl_dir p = 1
                /\ (pl_y p == y_base + (47 # 100)
                              + (22 # 100) * inject_Z (Z.of_nat (pl_lane p)))%Q)
               \/ (pl_dir p = -1
                   /\ (pl_y p == y_base - (47 # 100)
                                 - (22 # 100) * inject_Z (Z.of_nat (pl_lane p)))%Q))
            (drawn rs).
Proof.
  cbn zeta. destruct (draw_row_extents items y_base xmin xmax) as (A & B & C).
  split; [exact A|]. split; [exact B|]. split; [exact C|].
  apply draw_row_each. intros direction lanes d Hdir.
  destruct (chosen xmin xmax lanes d) as [[i x] lanes'].
  cbn [pl_dir pl_y pl_lane].
  destruct (lane_y_formula y_base direction i) as [F1 F2].
  destruct Hdir as [-> | ->]; [left | right]; split; auto.
Qed.

(* ================================================================== *)
(** ** Bands and lanes *)

Section BandFacts.

Lemma split_parity_length (items : list Request) : forall i,
  List.length (fst (split_parity i items))
  = (if Nat.even i then Nat.div2 (S (List.length items))
     else Nat.div2 (List.length items))
  /\ List.length (snd (split_parity i items))
     = (if Nat.even i then Nat.div2 (List.length items)
        else Nat.div2 (S (List.length items))).
Proof.
  induction items as [|d items IH]; intro i.
  - simpl. destruct (Nat.even i); auto.
  - cbn [split_parity]. specialize (IH (S i)).
    rewrite Nat.even_succ, <- Nat.negb_even in IH.
    destruct (split_parity (S i) items) as [t b]. cbn [fst snd] in IH.
    destruct IH as [Ht Hb].
    destruct (Nat.even i); cbn [negb fst snd List.length] in *;
      rewrite Ht, Hb; split; reflexivity.
Qed.

Lemma place_band_lanes xmin xmax y_base direction band rs :
  exists news,
    drawn (place_band xmin xmax y_base direction band rs) = drawn rs ++ news
    /\ List.length news = List.length band
    /\ Forall (fun p => pl_dir p = direction
                        /\ (pl_lane p < List.length band)%nat) news.
Proof.
  pose proof (place_band_requests xmin xmax y_base direction band rs) as Hreq.
  destruct band as [|d0 band0]; [exists []; simpl; now rewrite app_nil_r|].
  unfold place_band, band_loop in *.
  set (band := d0 :: band0) in *.
  set (base_y := (y_base + _)%Q) in *.
  pose proof (place_loop_invariant xmin xmax base_y direction
                (fun lanes r =>
                   exists news,
                     drawn r = drawn rs ++ news
                     /\ Forall (fun p => pl_dir p = direction
                                         /\ (pl_lane p < List.length lanes)%nat) news
                     /\ (List.length lanes <= List.length news)%nat)
                band) as Hinv.
  cbv beta in Hinv.
  destruct (Hinv) with (lanes := @nil Q) (rs := rs) as (news & Hd & Hall & Hlen).
  - intros lanes r d _ (news & Hd & Hall & Hlen). rewrite place_one_chosen.
    pose proof (chosen_facts xmin xmax lanes d) as Hc.
    destruct (chosen xmin xmax lanes d) as [[i x] lanes']. cbn [fst snd].
    destruct Hc as (Hi & Hle & Hle' & _).
    exists (news ++ [mkPl d direction i x (lane_y base_y direction i)]).
    rewrite record_label_drawn, Hd, <- app_assoc. split; [reflexivity|]. split.
    + apply Forall_app. split.
      * eapply Forall_impl; [|exact Hall]. intros p [Hp1 Hp2]. split; [exact Hp1 | lia].
      * constructor; [|constructor]. cbn [pl_dir pl_lane]. split; [reflexivity | exact Hi].
    + rewrite length_app. cbn [List.length]. lia.
  - exists []. rewrite app_nil_r. split; [reflexivity|]. split; [constructor | cbn; lia].
  - exists news. split; [exact Hd|].
    assert (Hn : List.length news = List.length band).
    { apply (f_equal (@List.length _)) in Hreq.
      rewrite Hd, !length_map, !length_app in Hreq. rewrite length_map in Hreq. lia. }
    split; [exact Hn|].
    eapply Forall_impl; [|exact Hall]. intros p [Hp1 Hp2]. split; [exact Hp1 | lia].
Qed.

End BandFacts.

(** X12.  The labels of a row are drawn top band first, then bottom band;
    of [n] requests the top band takes the upper half ([(n+1)/2]) and the
    bottom band the lower half ([n/2]); and the lane index of a label is
    below the number of labels of its band, so a band never uses more lanes
    than it has labels. *)
Theorem bands_are_balanced (items : list Request) (y_base xmin xmax : Q) :
  exists tops bottoms,
    drawn (draw_row_outside_labels items y_base xmin xmax) = tops ++ bottoms
    /\ List.length tops = Nat.div2 (S (List.length items))
    /\ List.length bottoms = Nat.div2 (List.length items)
    /\ Forall (fun p => pl_dir p = 1 /\ (pl_lane p < List.length tops)%nat) tops
    /\ Forall (fun p => pl_dir p = -1 /\ (pl_lane p < List.length bottoms)%nat)
              bottoms.
Proof.
  unfold draw_row_outside_labels. destruct items as [|d0 items0].
  { exists [], []. repeat split; constructor. }
  set (items := d0 :: items0).
  destruct (split_parity_length (sorted_by_anchor items) 0) as [Ht Hb].
  cbn [Nat.even] in Ht, Hb.
  rewrite (Permutation_length (sorted_by_anchor_perm items)) in Ht, Hb.
  destruct (split_parity 0 (sorted_by_anchor items)) as [t b]. cbn [fst snd] in *.
  set (rs0 := mkRS _ _ []).
  destruct (place_band_lanes xmin xmax y_base 1 t rs0) as (tops & Et & Lt & Ft).
  destruct (place_band_lanes xmin xmax y_base (-1) b
              (place_band xmin xmax y_base 1 t rs0)) as (bots & Eb & Lb & Fb).
  exists tops, bots. rewrite Eb, Et. cbn [drawn rs0 app].
  split; [reflexivity|]. split; [lia|]. split; [lia|].
  rewrite Lt, Lb. split; assumption.
Qed.

(* ================================================================== *)
(** ** Which labels go where *)

Section LabelFacts.

Local Open Scope Q_scope.

Lemma decide_label_cases tw l s e it :
  (decide_label tw l s e it = Inside l (inject_Z (s + e) / 2) it
   /\ need_sec tw l < inject_Z (e - s))
  \/ (decide_label tw l s e it
      = Queued (mkReq l (inject_Z (s + e) / 2) (inject_Z e + 6) (need_sec tw l) it)
      /\ inject_Z (e - s) <= need_sec tw l).
Proof.
  unfold decide_label.
  destruct (Qlt_bool (need_sec tw l) (inject_Z (e - s))) eqn:E.
  - left. split; [reflexivity | now apply Qlt_bool_iff].
  - right. split; [reflexivity|]. apply Qnot_lt_le. intro H.
    apply Qlt_bool_iff in H. congruence.
Qed.

Lemma inside_room tw l (s e : Z) :
  need_sec tw l < inject_Z (e - s) ->
  inject_Z s + 3 < inject_Z (s + e) / 2 - tw l * sec_per_px / 2
  /\ inject_Z (s + e) / 2 + tw l * sec_per_px / 2 < inject_Z e - 3.
Proof.
  unfold need_sec, Zminus. rewrite !inject_Z_plus, inject_Z_opp.
  set (m := tw l * sec_per_px). set (a := inject_Z s). set (b := inject_Z e).
  intro H. split.
  - apply Qlt_minus_iff. setoid_replace ((a + b) / 2 - m / 2 + - (a + 3))
      with ((b + - a - (m + 6)) / 2) by field.
    apply Qlt_shift_div_l; [reflexivity | lra].
  - apply Qlt_minus_iff. setoid_replace (b - 3 + - ((a + b) / 2 + m / 2))
      with ((b + - a - (m + 6)) / 2) by field.
    apply Qlt_shift_div_l; [reflexivity | lra].
Qed.

End LabelFacts.

(** X13.  Every request queued for a row comes from a team span with a
    non-blank label or from a digest group, and from one that is not wider
    than its label needs: it carries that label, is anchored at the middle of
    the span, prefers the position 6 right of the span's end, and has the
    needed width; digest requests are italic, team requests are not. *)
Theorem outside_requests_origin (tw : string -> Q) (segs : list Segment) :
  Forall (fun r =>
            (exists t s e,
                In (t, s, e) (team_merge segs) /\ is_blank t = false
                /\ r = mkReq t (inject_Z (s + e) / 2)%Q (inject_Z e + 6)%Q
                             (need_sec tw t) false
                /\ (inject_Z (e - s) <= need_sec tw t)%Q)
            \/ (exists s e n,
                   In (s, e, n) (digest_groups segs)
                   /\ r = mkReq (digest_label n) (inject_Z (s + e) / 2)%Q
                                (inject_Z e + 6)%Q (need_sec tw (digest_label n)) true
                   /\ (inject_Z (e - s) <= need_sec tw (digest_label n))%Q))
         (row_outside tw segs).
Proof.
  unfold row_outside. apply Forall_app. split; rewrite Forall_forall; intros r Hr;
    apply in_flat_map in Hr as (x & Hx & Hr).
  - left. destruct x as [[t s] e]. unfold decide_team in Hr.
    destruct (is_blank t) eqn:Eb; [destruct Hr|].
    destruct (decide_label_cases tw t s e false) as [[E _] | [E Hle]];
      rewrite E in Hr; [destruct Hr|].
    destruct Hr as [<- | []]. now exists t, s, e.
  - right. destruct x as [[s e] n]. unfold decide_digest in Hr.
    destruct (decide_label_cases tw (digest_label n) s e true) as [[E _] | [E Hle]];
      rewrite E in Hr; [destruct Hr|].
    destruct Hr as [<- | []]. now exists s, e, n.
Qed.

(** X14.  A label drawn inside a bar is centred on its span, and by the
    program's own estimate of the text width (pixels times seconds per
    pixel) the text stays more than 3 seconds away from both ends of the
    span. *)
Theorem inside_labels_fit (tw : string -> Q) (segs : list Segment) :
  Forall (fun lab =>
            let '(text, xc, it) := lab in
            exists s e,
              ((In (text, s, e) (team_merge segs) /\ is_blank text = false
                /\ it = false)
               \/ (exists n, In (s, e, n) (digest_groups segs)
                             /\ text = digest_label n /\ it = true))
              /\ xc = (inject_Z (s + e) / 2)%Q
              /\ (inject_Z s + 3 < xc - tw text * sec_per_px / 2)%Q
              /\ (xc + tw text * sec_per_px / 2 < inject_Z e - 3)%Q)
         (row_inside tw segs).
Proof.
  unfold row_inside. apply Forall_app. split; rewrite Forall_forall; intros r Hr;
    apply in_flat_map in Hr as (x & Hx & Hr).
  - destruct x as [[t s] e]. unfold decide_team in Hr.
    destruct (is_blank t) eqn:Eb; [destruct Hr|].
    destruct (decide_label_cases tw t s e false) as [[E Hlt] | [E _]];
      rewrite E in Hr; [|destruct Hr].
    destruct Hr as [<- | []]. exists s, e.
    split; [left; auto|]. split; [reflexivity|]. now apply inside_room.
  - destruct x as [[s e] n]. unfold decide_digest in Hr.
    destruct (decide_label_cases tw (digest_label n) s e true) as [[E Hlt] | [E _]];
      rewrite E in Hr; [|destruct Hr].
    destruct Hr as [<- | []]. exists s, e.
    split; [right; exists n; auto|]. split; [reflexivity|]. now apply inside_room.
Qed.

(* ================================================================== *)
(** ** The loop over the sheets *)

Section SheetLoopFacts.

Local Open Scope Q_scope.

Lemma generate_rows_snoc tw inc sheets segs :
  generate_rows tw inc (sheets ++ [segs])
  = generate_row tw inc (generate_rows tw inc sheets) segs.
Proof. unfold generate_rows. now rewrite fold_left_app. Qed.

Lemma generate_rows_inv tw inc (sheets : list (list Segment)) :
  let st := generate_rows tw inc sheets in
  List.length (g_rows st) = List.length sheets
  /\ g_y0 st == row_h * inject_Z (Z.of_nat (List.length sheets))
  /\ (forall i rd, nth_error (g_rows st) i = Some rd ->
                   rd_y0 rd == row_h * inject_Z (Z.of_nat i))
  /\ Forall2 (fun segs rd =>
                rd_bars rd = draw_bars inc segs
                /\ rd_inside rd = row_inside tw segs
                /\ rd_layout rd = row_layout tw segs (rd_y0 rd))
             sheets (g_rows st)
  /\ match g_extent st with
     | Some (gb, gt) =>
         Forall (fun rd => gb <= bottom_min_y (rd_layout rd)
                           /\ top_max_y (rd_layout rd) <= gt) (g_rows st)
     | None => sheets = []
     end.
Proof.
  induction sheets as [|segs sheets IH] using rev_ind.
  - cbn. split; [reflexivity|]. split; [reflexivity|].
    split; [intros [|i] rd H; discriminate|]. split; [constructor | reflexivity].
  - cbn zeta in *. rewrite generate_rows_snoc.
    destruct IH as (Hlen & Hy & Hnth & Hrows & Hext).
    set (st := generate_rows tw inc sheets) in *.
    unfold generate_row. cbn [g_rows g_y0 g_extent].
    set (rd := mkRD (g_y0 st) (draw_bars inc segs) (row_inside tw segs)
                    (row_layout tw segs (g_y0 st))).
    rewrite !length_app. cbn [List.length]. split; [lia|]. split.
    { rewrite Hy, Nat.add_1_r, Nat2Z.inj_succ. unfold Z.succ.
      rewrite inject_Z_plus. ring. }
    split.
    { intros i rd' Hi. destruct (Nat.lt_ge_cases i (List.length (g_rows st))) as [Hlt|Hge].
      - rewrite nth_error_app1 in Hi by exact Hlt. now apply Hnth.
      - rewrite nth_error_app2 in Hi by exact Hge.
        destruct (i - List.length (g_rows st))%nat as [|k] eqn:Ek;
          [|destruct k; discriminate].
        inversion Hi; subst rd'. cbn [rd rd_y0].
        assert (i = List.length sheets) by lia. subst i. exact Hy. }
    split.
    { apply Forall2_app; [exact Hrows|]. constructor; [|constructor].
      cbn [rd rd_bars rd_inside rd_layout rd_y0]. auto. }
    destruct (g_extent st) as [[gb gt]|].
    + apply Forall_app. split.
      * eapply Forall_impl; [|exact Hext]. intros r [H1 H2].
        pose proof (qmin_le_l gb (bottom_min_y (row_layout tw segs (g_y0 st)))).
        pose proof (qmax_ge_l gt (top_max_y (row_layout tw segs (g_y0 st)))).
        split; lra.
      * constructor; [|constructor]. cbn [rd rd_layout].
        split; [apply qmin_le_r | apply qmax_ge_r].
    + apply Forall_app. split.
      * subst sheets. destruct (g_rows st); [constructor | discriminate].
      * constructor; [|constructor]. cbn [rd rd_layout]. split; apply Qle_refl.
Qed.

Lemma Forall2_right_in (A B : Type) (R : A -> B -> Prop) l l' y :
  Forall2 R l l' -> In y l' -> exists x, In x l /\ R x y.
Proof.
  induction 1 as [|a b l l' Hab Hl IH]; intros Hy; [destruct Hy|].
  destruct Hy as [<- | Hy].
  - exists a. split; [now left | exact Hab].
  - destruct (IH Hy) as (x & Hx & Hr). exists x. split; [now right | exact Hr].
Qed.

End SheetLoopFacts.

(** X15.  One row is drawn per sheet, in the order of the sheets, row [i]
    at height [1.6 i], with the bars, inside labels and outside labels of
    that sheet; and the vertical limits of the chart leave at least 0.25
    beyond the bar and beyond the height of every outside label of every
    row. *)
Theorem y_limits_enclose_rows (tw : string -> Q) (inc : bool)
        (sheets : list (list Segment)) :
  let st := generate_rows tw inc sheets in
  let lo := fst (y_limits st) in
  let hi := snd (y_limits st) in
  Forall2 (fun segs rd =>
             rd_bars rd = draw_bars inc segs
             /\ rd_inside rd = row_inside tw segs
             /\ rd_layout rd = row_layout tw segs (rd_y0 rd))
          sheets (g_rows st)
  /\ (forall i rd, nth_error (g_rows st) i = Some rd ->
                   (rd_y0 rd == row_h * inject_Z (Z.of_nat i))%Q)
  /\ Forall (fun rd =>
               (lo + (25 # 100) <= rd_y0 rd - bar_half)%Q
               /\ (rd_y0 rd + bar_half <= hi - (25 # 100))%Q
               /\ Forall (fun p => (lo + (25 # 100) <= pl_y p)%Q
                                   /\ (pl_y p <= hi - (25 # 100))%Q)
                         (drawn (rd_layout rd)))
            (g_rows st).
Proof.
  cbn zeta. destruct (generate_rows_inv tw inc sheets) as (_ & _ & Hnth & Hrows & Hext).
  cbn zeta in *. split; [exact Hrows|]. split; [exact Hnth|].
  set (st := generate_rows tw inc sheets) in *. unfold y_limits.
  destruct (g_extent st) as [[gb gt]|].
  - cbn [fst snd]. rewrite Forall_forall in *. intros rd Hrd.
    destruct (Hext _ Hrd) as [Hb Ht].
    assert (Hok : extents_ok (rd_y0 rd) (rd_layout rd)).
    { destruct (Forall2_right_in _ _ _ _ _ _ Hrows Hrd) as (segs & _ & _ & _ & ->).
      apply draw_row_extents. }
    destruct Hok as (H1 & H2 & H3).
    split; [lra|]. split; [lra|].
    rewrite Forall_forall in *. intros p Hp. destruct (H3 _ Hp). split; lra.
  - subst sheets. inversion Hrows. constructor.
Qed.

(* ================================================================== *)
(** ** Font selection *)

Section FontFacts.

Lemma find_first (A : Type) (f : A -> bool) (l : list A) x :
  find f l = Some x ->
  exists l1 l2, l = l1 ++ x :: l2 /\ f x = true /\ Forall (fun y => f y = false) l1.
Proof.
  induction l as [|a l IH]; [discriminate|]. cbn [find].
  destruct (f a) eqn:E.
  - intro H; inversion H; subst. exists [], l. auto.
  - intro H. destruct (IH H) as (l1 & l2 & -> & Hx & Hl1).
    exists (a :: l1), l2. auto.
Qed.

Lemma find_all_false (A : Type) (f : A -> bool) (l : list A) :
  find f l = None -> Forall (fun y => f y = false) l.
Proof.
  induction l as [|a l IH]; [constructor|]. cbn [find].
  destruct (f a) eqn:E; [discriminate|]. auto.
Qed.

Lemma installed_names_in env files n :
  In n (installed_names env files)
  <-> exists f, In f files /\ font_name env f = Some n.
Proof.
  induction files as [|f files IH]; cbn [installed_names].
  - split; [intros [] | intros (f & [] & _)].
  - destruct (font_name env f) as [m|] eqn:E.
    + split.
      * intros [<- | H]; [exists f; split; [now left | exact E]|].
        apply IH in H as (g & Hg & Hn). exists g. split; [now right | exact Hn].
      * intros (g & [<- | Hg] & Hn).
        -- left. congruence.
        -- right. apply IH. now exists g.
    + rewrite IH. split.
      * intros (g & Hg & Hn). exists g. split; [now right | exact Hn].
      * intros (g & [<- | Hg] & Hn); [congruence|]. now exists g.
Qed.

Lemma name_in_iff installed n : name_in installed n = true <-> In n installed.
Proof.
  unfold name_in. rewrite existsb_exists. split.
  - intros (x & Hx & E). apply String.eqb_eq in E. now subst.
  - intro H. exists n. split; [exact H | apply String.eqb_refl].
Qed.

Lemma try_paths_some env (paths : list string) n :
  try_paths env paths = Some n ->
  exists l1 p l2,
    paths = l1 ++ p :: l2
    /\ isfile env p = true /\ addfont env p = true /\ font_name env p = Some n
    /\ Forall (fun q => isfile env q = false \/ addfont env q = false
                        \/ font_name env q = None) l1.
Proof.
  induction paths as [|p paths IH]; [discriminate|]. cbn [try_paths].
  destruct (isfile env p) eqn:E1; [destruct (addfont env p) eqn:E2;
    [destruct (font_name env p) as [m|] eqn:E3|]|].
  - intro H; inversion H; subst. exists [], p, paths. auto.
  - intro H. destruct (IH H) as (l1 & q & l2 & -> & A & B & C & D).
    exists (p :: l1), q, l2. repeat split; auto.
  - intro H. destruct (IH H) as (l1 & q & l2 & -> & A & B & C & D).
    exists (p :: l1), q, l2. repeat split; auto.
  - intro H. destruct (IH H) as (l1 & q & l2 & -> & A & B & C & D).
    exists (p :: l1), q, l2. repeat split; auto.
Qed.

Lemma try_paths_none env (paths : list string) :
  try_paths env paths = None ->
  Forall (fun q => isfile env q = false \/ addfont env q = false
                   \/ font_name env q = None) paths.
Proof.
  induction paths as [|p paths IH]; [constructor|]. cbn [try_paths].
  destruct (isfile env p) eqn:E1; [destruct (addfont env p) eqn:E2;
    [destruct (font_name env p) as [m|] eqn:E3|]|]; try discriminate; auto.
Qed.

End FontFacts.

(** X16.  The font set-up ends in exactly one of three ways.  (1) The
    family is the name of the first candidate file that exists, registers
    and has a readable name; the files before it fail one of the three.
    (2) No candidate file is usable, the system scan succeeds, and the family
    is the first candidate name, in the order of the list, that is the name of
    a scanned font file.  (3) Neither, and the family is sans-serif with the
    seven candidate names put before the former sans-serif list.  Only the
    third way changes the sans-serif list. *)
Theorem font_selection (env : FontEnv) (rc : RcParams) :
  let unusable q := isfile env q = false \/ addfont env q = false
                    \/ font_name env q = None in
  let absent files m := forall f, In f files -> font_name env f <> Some m in
  (exists n l1 p l2,
      candidates_paths = l1 ++ p :: l2
      /\ isfile env p = true /\ addfont env p = true /\ font_name env p = Some n
      /\ Forall unusable l1
      /\ setup_japanese_font env rc = mkRc [n] (font_sans_serif rc))
  \/ (Forall unusable candidates_paths
      /\ exists files n l1 l2,
          system_fonts env = Some files
          /\ candidates_names = l1 ++ n :: l2
          /\ (exists f, In f files /\ font_name env f = Some n)
          /\ Forall (absent files) l1
          /\ setup_japanese_font env rc = mkRc [n] (font_sans_serif rc))
  \/ (Forall unusable candidates_paths
      /\ (system_fonts env = None
          \/ exists files, system_fonts env = Some files
                           /\ Forall (absent files) candidates_names)
      /\ setup_japanese_font env rc
         = mkRc ["sans-serif"] (candidates_names ++ font_sans_serif rc)).
Proof.
  cbn zeta. unfold setup_japanese_font.
  assert (Habs : forall files l,
             Forall (fun y => name_in (installed_names env files) y = false) l ->
             Forall (fun m => forall f, In f files -> font_name env f <> Some m) l).
  { intros files l H. eapply Forall_impl; [|exact H]. intros m Hm f Hf E.
    assert (name_in (installed_names env files) m = true).
    { apply name_in_iff, installed_names_in. now exists f. }
    congruence. }
  destruct (try_paths env candidates_paths) as [n|] eqn:E1.
  - left. destruct (try_paths_some _ _ _ E1) as (l1 & p & l2 & A & B & C & D & F).
    exists n, l1, p, l2. auto 7.
  - right. pose proof (try_paths_none _ _ E1) as Hnone.
    unfold detect_installed. destruct (system_fonts env) as [files|] eqn:E2.
    + destruct (find (name_in (installed_names env files)) candidates_names)
        as [n|] eqn:E3.
      * left. split; [exact Hnone|].
        destruct (find_first _ _ _ _ E3) as (l1 & l2 & A & B & C).
        exists files, n, l1, l2. split; [reflexivity|]. split; [exact A|].
        split; [now apply installed_names_in, name_in_iff|].
        split; [now apply Habs | reflexivity].
      * right. split; [exact Hnone|]. split; [|reflexivity].
        right. exists files. split; [reflexivity|].
        now apply Habs, find_all_false.
    + right. split; [exact Hnone|]. split; [now left | reflexivity].
Qed.

Example font_from_candidate_file :
  font_family (setup_japanese_font env_with_file (mkRc ["serif"] ["Arial"]))
  = ["Noto Sans CJK JP"].
Proof. reflexivity. Qed.

Example font_by_priority_of_names :
  setup_japanese_font env_with_installed (mkRc ["serif"] ["Arial"])
  = mkRc ["IPAGothic"] ["Arial"].
Proof. reflexivity. Qed.

(* ================================================================== *)
(** ** Labels of a band follow the order of their anchors *)

Section AnchorOrderFacts.

Local Open Scope Q_scope.

Lemma insert_by_anchor_ordered d l :
  ForallOrdPairs (fun a b => anchor_x a <= anchor_x b) l ->
  ForallOrdPairs (fun a b => anchor_x a <= anchor_x b) (insert_by_anchor d l).
Proof.
  induction 1 as [|h t Hh Ht IH]; cbn [insert_by_anchor]; [repeat constructor|].
  destruct (Qlt_bool (anchor_x h) (anchor_x d)) eqn:E.
  - constructor; [|exact IH]. rewrite Forall_forall in *. intros x Hx.
    apply (Permutation_in _ (insert_by_anchor_perm d t)) in Hx.
    destruct Hx as [<- | Hx]; [|now apply Hh].
    apply Qlt_bool_iff in E. now apply Qlt_le_weak.
  - assert (Hdh : anchor_x d <= anchor_x h).
    { apply Qnot_lt_le. intro H. apply Qlt_bool_iff in H. congruence. }
    constructor; [|now constructor]. constructor; [exact Hdh|].
    eapply Forall_impl; [|exact Hh]. intros x Hx. cbv beta in Hx.
    now apply Qle_trans with (anchor_x h).
Qed.

Lemma sorted_by_anchor_ordered items :
  ForallOrdPairs (fun a b => anchor_x a <= anchor_x b) (sorted_by_anchor items).
Proof.
  induction items as [|d items IH]; [constructor|].
  cbn [sorted_by_anchor]. now apply insert_by_anchor_ordered.
Qed.

Lemma split_parity_ordered (R : Request -> Request -> Prop) (items : list Request) :
  ForallOrdPairs R items ->
  forall i, ForallOrdPairs R (fst (split_parity i items))
            /\ ForallOrdPairs R (snd (split_parity i items)).
Proof.
  induction 1 as [|d items Hd Hitems IH]; intro i; [split; constructor|].
  cbn [split_parity]. specialize (IH (S i)).
  pose proof (split_parity_perm items (S i)) as Hp.
  destruct (split_parity (S i) items) as [t b]. cbn [fst snd] in *.
  destruct IH as [IHt IHb].
  assert (Ht : Forall (R d) t).
  { rewrite Forall_forall in *. intros x Hx. apply Hd.
    apply (Permutation_in _ Hp), in_or_app. now left. }
  assert (Hb : Forall (R d) b).
  { rewrite Forall_forall in *. intros x Hx. apply Hd.
    apply (Permutation_in _ Hp), in_or_app. now right. }
  destruct (Nat.even i); cbn [fst snd]; split; try assumption; now constructor.
Qed.

Lemma ForallOrdPairs_of_map (A B : Type) (f : A -> B) (R : B -> B -> Prop) (l : list A) :
  ForallOrdPairs R (map f l) -> ForallOrdPairs (fun p q => R (f p) (f q)) l.
Proof.
  induction l as [|a l IH]; intro H; [constructor|].
  cbn [map] in H. inversion H; subst. constructor; [|now apply IH].
  now apply Forall_map.
Qed.

End AnchorOrderFacts.

(** X17.  In each band the labels are drawn in the order of their anchors:
    of two labels of the top band, and of two labels of the bottom band, the
    one drawn first has the anchor that is not larger. *)
Theorem band_labels_in_anchor_order (items : list Request) (y_base xmin xmax : Q) :
  exists tops bottoms,
    drawn (draw_row_outside_labels items y_base xmin xmax) = tops ++ bottoms
    /\ Forall (fun p => pl_dir p = 1) tops
    /\ Forall (fun p => pl_dir p = -1) bottoms
    /\ ForallOrdPairs (fun p q => (anchor_x (pl_req p) <= anchor_x (pl_req q))%Q) tops
    /\ ForallOrdPairs (fun p q => (anchor_x (pl_req p) <= anchor_x (pl_req q))%Q)
                      bottoms.
Proof.
  unfold draw_row_outside_labels. destruct items as [|d0 items0].
  { exists [], []. repeat split; constructor. }
  set (items := d0 :: items0).
  destruct (split_parity_ordered _ _ (sorted_by_anchor_ordered items) 0) as [Ot Ob].
  destruct (split_parity 0 (sorted_by_anchor items)) as [t b]. cbn [fst snd] in *.
  set (rs0 := mkRS _ _ []).
  pose proof (place_band_requests xmin xmax y_base 1 t rs0) as Rt.
  pose proof (place_band_requests xmin xmax y_base (-1) b
                (place_band xmin xmax y_base 1 t rs0)) as Rb.
  destruct (place_band_lanes xmin xmax y_base 1 t rs0) as (tops & Et & _ & Ft).
  destruct (place_band_lanes xmin xmax y_base (-1) b
              (place_band xmin xmax y_base 1 t rs0)) as (bots & Eb & _ & Fb).
  rewrite Eb, map_app in Rb. apply app_inv_head in Rb.
  rewrite Et in Rt. cbn [drawn rs0 app map] in Rt.
  exists tops, bots. rewrite Eb, Et. cbn [drawn rs0 app].
  split; [reflexivity|].
  split; [eapply Forall_impl; [|exact Ft]; now intros p [H _]|].
  split; [eapply Forall_impl; [|exact Fb]; now intros p [H _]|].
  split;
    apply (ForallOrdPairs_of_map _ _ pl_req
             (fun a b => (anchor_x a <= anchor_x b)%Q));
    [now rewrite Rt | now rewrite Rb].
Qed.

(* ================================================================== *)
(** ** Every digest group is a block of segments *)

Section DigestRunFacts.

Lemma group_run_after_plain x l g :
  is_digest x = false ->
  (exists pre run post, l = pre ++ run ++ post /\ group_run pre run post g) ->
  exists pre run post, x :: l = pre ++ run ++ post /\ group_run pre run post g.
Proof.
  intros Hx (pre & run & post & -> & Hne & Hall & Hl & Hf & Eg).
  exists (x :: pre), run, post. split; [reflexivity|].
  unfold group_run. repeat split; try assumption.
  destruct pre as [|y pre]; [simpl; now rewrite Hx|].
  now rewrite last_seg_cons by discriminate.
Qed.

Lemma group_run_after_block r l g :
  bounded_by is_digest (first_seg l) = true ->
  (exists pre run post, l = pre ++ run ++ post /\ group_run pre run post g) ->
  exists pre run post, r ++ l = pre ++ run ++ post /\ group_run pre run post g.
Proof.
  intros Hfirst (pre & run & post & -> & Hne & Hall & Hl & Hf & Eg).
  destruct pre as [|y pre].
  - exfalso. destruct run as [|z run]; [congruence|].
    simpl in Hfirst, Hall. apply andb_true_iff in Hall as [Hz _].
    rewrite Hz in Hfirst. discriminate.
  - exists (r ++ y :: pre), run, post. split; [now rewrite <- app_assoc|].
    unfold group_run. repeat split; try assumption.
    now rewrite last_seg_app_run by discriminate.
Qed.

Lemma digest_groups_blocks (n : nat) : forall segs,
  (List.length segs <= n)%nat ->
  Forall (fun g => exists pre run post,
              segs = pre ++ run ++ post /\ group_run pre run post g)
         (digest_groups segs).
Proof.
  induction n as [|n IH]; intros segs Hlen.
  - destruct segs; [constructor | simpl in Hlen; lia].
  - destruct segs as [|x l]; [constructor|]. cbn [List.length] in Hlen.
    destruct (is_digest x) eqn:Hx.
    + destruct (split_digest_prefix (x :: l)) as (r & l' & E & Hr & Hl').
      destruct r as [|x' r'].
      { simpl in E. subst l'. simpl in Hl'. rewrite Hx in Hl'. discriminate. }
      assert (Hshort : (List.length l' <= n)%nat).
      { apply (f_equal (@List.length _)) in E.
        rewrite length_app in E. cbn [List.length] in E. lia. }
      rewrite E.
      pose proof (digest_groups_run [] (x' :: r') l' ltac:(discriminate) Hr eq_refl Hl')
        as Hrun.
      change (digest_groups []) with (@nil Group) in Hrun.
      change ([] ++ (x' :: r') ++ l') with ((x' :: r') ++ l') in Hrun.
      rewrite app_nil_l in Hrun. rewrite Hrun. constructor.
      * exists [], (x' :: r'), l'. split; [reflexivity|].
        unfold group_run. repeat split; try assumption. discriminate.
      * eapply Forall_impl; [|exact (IH l' Hshort)].
        intros g Hg. now apply group_run_after_block.
    + rewrite digest_groups_cons, Hx.
      eapply Forall_impl; [|exact (IH l ltac:(lia))].
      intros g Hg. now apply group_run_after_plain.
Qed.





End DigestRunFacts.

(** X18.  Every digest group is the group of a block of consecutive digest
    segments that cannot be extended (the segment before it and the one
    after it, if any, is not a digest segment): it runs from the start of
    the first to the end of the last and counts the segments of the block. *)
Theorem digest_groups_are_runs (segs : list Segment) :
  Forall (fun g => exists pre run post,
              segs = pre ++ run ++ post
              /\ run <> []
              /\ forallb is_digest run = true
              /\ bounded_by is_digest (last_seg pre) = true
              /\ bounded_by is_digest (first_seg post) = true
              /\ g = (start_of run, end_of run, Z.of_nat (List.length run)))
         (digest_groups segs).
Proof. exact (digest_groups_blocks (List.length segs) segs (Nat.le_refl _)). Qed.

